(** * A ray caster for spheres: the rendering pipeline of [rt.c]

    The program of [rt.c] casts one ray per pixel from a pinhole camera,
    intersects it with every sphere of the scene, shades the nearest hit
    (ambient + diffuse + specular) and stores the clamped colour in an
    image buffer.

    The C code computes on [double].  It is embedded here on Rocq's
    primitive binary64 numbers ([PrimFloat.float]), whose operations are
    the IEEE 754 ones the C operators [+ - * /], [sqrt], the comparisons
    and [isinf] denote: every operation rounds to nearest-even, [nan]
    compares false with everything, and there are two zeros.  (The model
    takes each C operation to round once to binary64: no fused
    multiply-add and no extended precision.)  [tan] and [pow] come from
    libm, which fixes no result to the last bit: they are parameters of
    the development. *)

From Stdlib Require Import ZArith Floats Bool Lia.
From Stdlib Require Reals Lra.
From stdpp Require Import base option list.

Set Warnings "-inexact-float".

Local Open Scope float_scope.

(** ** C operators that [PrimFloat] spells differently *)

(** [a > b] and [a >= b] on [double]: false as soon as one side is [nan]. *)
Definition gtb (a b : float) : bool := b <? a.
Definition geb (a b : float) : bool := b <=? a.

Notation "a >? b" := (gtb a b) (at level 70, no associativity) : float_scope.
Notation "a >=? b" := (geb a b) (at level 70, no associativity) : float_scope.

(** [INFINITY] and [M_PI] of [<math.h>] ([M_PI] is the binary64 number
    nearest to pi, written here bit for bit). *)
Definition INFINITY : float := infinity.
Definition M_PI : float := 0x1.921fb54442d18p+1.

(** [isinf]: true on both infinities, false on [nan]. *)
Definition isinf (a : float) : bool := is_infinity a.

(** Conversion of a [size_t] to [double].  The counters and sizes of the
    program stay far below [2^53], where the conversion is exact. *)
Definition double_of_size_t (n : nat) : float :=
  of_uint63 (Uint63.of_Z (Z.of_nat n)).

(** Conversion of an [int] constant to [double]. *)
Definition double_of_int (n : Z) : float :=
  if (n <? 0)%Z then - of_uint63 (Uint63.of_Z (- n)) else of_uint63 (Uint63.of_Z n).

(** Conversion of a [double] to an integer type discards the fraction
    (truncation toward zero); [nan] and the infinities have no integer
    part. *)
Definition double_trunc (a : float) : option Z :=
  match Prim2SF a with
  | S754_zero _ => Some 0%Z
  | S754_finite s m (Zpos e) => Some (cond_Zopp s (Z.pos m * 2 ^ Z.pos e))
  | S754_finite s m Z0 => Some (cond_Zopp s (Z.pos m))
  | S754_finite s m (Zneg e) => Some (cond_Zopp s (Z.pos m / 2 ^ Z.pos e))
  | S754_infinity _ | S754_nan => None
  end.

(** Conversion of a [double] to [uint8_t]: defined by C only when the
    truncated value fits the type; [None] stands for the undefined
    conversions. *)
Definition uint8_of_double (a : float) : option Z :=
  match double_trunc a with
  | Some n => if ((0 <=? n) && (n <=? 255))%Z then Some n else None
  | None => None
  end.

(** ** [vec3.h] *)

(** Modelled from the spec: [vec3.h] is not part of the sources at hand.
    Section 4.1 of the specification lists its operations: three real
    components; add, subtract, scalar and elementwise multiply, dot and
    cross product, Euclidean length, normalize (divide by the length) and
    [reflect(incident, normal) = incident - 2 (incident . normal) normal].
    Sums of three terms are taken left to right.  The components [x], [y]
    and [z] are the projections [vx], [vy] and [vz]. *)
Record vec3 : Type := mk_vec3 { vx : float; vy : float; vz : float }.

Definition vec3_add (a b : vec3) : vec3 :=
  {| vx := vx a + vx b; vy := vy a + vy b; vz := vz a + vz b |}.

Definition vec3_sub (a b : vec3) : vec3 :=
  {| vx := vx a - vx b; vy := vy a - vy b; vz := vz a - vz b |}.

Definition vec3_mul (a : vec3) (k : float) : vec3 :=
  {| vx := vx a * k; vy := vy a * k; vz := vz a * k |}.

Definition vec3_mul_vec (a b : vec3) : vec3 :=
  {| vx := vx a * vx b; vy := vy a * vy b; vz := vz a * vz b |}.

Definition vec3_dot (a b : vec3) : float :=
  vx a * vx b + vy a * vy b + vz a * vz b.

Definition vec3_cross (a b : vec3) : vec3 :=
  {| vx := vy a * vz b - vz a * vy b;
     vy := vz a * vx b - vx a * vz b;
     vz := vx a * vy b - vy a * vx b |}.

Definition vec3_length (a : vec3) : float := sqrt (vec3_dot a a).

(** [vec3_normalize] works in place in C; here it returns the new value. *)
Definition vec3_normalize (a : vec3) : vec3 :=
  let len := vec3_length a in
  {| vx := vx a / len; vy := vy a / len; vz := vz a / len |}.

Definition vec3_reflect (incident normal : vec3) : vec3 :=
  vec3_sub incident (vec3_mul normal (2 * vec3_dot incident normal)).

(** ** The structures of [rt.c] *)

(** The fields [center], [width] and [height] of [struct camera] carry the
    prefix [cam_] here: the sphere and the image have fields of these
    names. *)

Record sphere : Type := { center : vec3; radius : float }.

Record ray : Type := { source : vec3; direction : vec3 }.

Record camera : Type := {
  cam_center : vec3;
  forward : vec3;
  up : vec3;
  cam_width : float;
  cam_height : float;
  focal_distance : float
}.

Record intersection : Type := { point : vec3; normal : vec3 }.

(** ** Camera *)

Section Camera.

(** libm's tangent. *)
Variable tan : float -> float.

(** The divisor [(360 / 2)] is a division of [int] constants, converted
    to [double] afterwards. *)
Definition focal_distance_from_fov (width fov_deg : float) : float :=
  let fov_rad := fov_deg * M_PI / double_of_int (360 / 2) in
  (width / 2) / tan (fov_rad / 2).

End Camera.

(** [camera_cast_ray] fills [*ray]; here it returns the ray. *)
Definition camera_cast_ray (camera : camera) (cam_x cam_y : float) : ray :=
  let x_coeff := cam_x * cam_width camera in
  let y_coeff := cam_y * cam_height camera in
  let right := vec3_cross (forward camera) (up camera) in
  let right_offset := vec3_mul right x_coeff in
  let up_offset := vec3_mul (up camera) y_coeff in
  let offset := vec3_add right_offset up_offset in
  let ray_source := vec3_add (cam_center camera) offset in
  let vantage_point_offset := vec3_mul (forward camera) (- focal_distance camera) in
  let vantage_point := vec3_add vantage_point_offset (cam_center camera) in
  let ray_direction := vec3_sub ray_source vantage_point in
  {| source := ray_source; direction := vec3_normalize ray_direction |}.

(** ** Ray-sphere intersection *)

(** The quantities [sphere_ray_intersect] computes on its way, named as
    its local variables are. *)
Definition sri_projection (ray : ray) (sphere : sphere) : float :=
  vec3_dot (vec3_sub (center sphere) (source ray)) (direction ray).

Definition sri_d (ray : ray) (sphere : sphere) : float :=
  let hyp_len := vec3_length (vec3_sub (center sphere) (source ray)) in
  let projection := sri_projection ray sphere in
  sqrt (hyp_len * hyp_len - projection * projection).

Definition sri_m (ray : ray) (sphere : sphere) : float :=
  let d := sri_d ray sphere in
  sqrt (radius sphere * radius sphere - d * d).

Definition sri_t0 (ray : ray) (sphere : sphere) : float :=
  sri_projection ray sphere - sri_m ray sphere.

Definition sri_t1 (ray : ray) (sphere : sphere) : float :=
  sri_projection ray sphere + sri_m ray sphere.

(** The C function returns the distance and writes [*intersection] only
    on the path that reaches the end: the second component is [None] where
    the out-parameter is left untouched. *)
Definition sphere_ray_intersect (ray : ray) (sphere : sphere)
  : float * option intersection :=
  let hypothenuse := vec3_sub (center sphere) (source ray) in
  let hyp_len := vec3_length hypothenuse in
  let projection := vec3_dot hypothenuse (direction ray) in
  if projection <? 0 then (INFINITY, None)
  else
    let d := sqrt (hyp_len * hyp_len - projection * projection) in
    if d >? radius sphere then (INFINITY, None)
    else
      let radius := radius sphere in
      let m := sqrt (radius * radius - d * d) in
      let t0 := projection - m in
      let t1 := projection + m in
      let t := t0 in
      let t := if t <? 0 then t1 else t in
      let point_offset := vec3_mul (direction ray) t in
      let point := vec3_add (source ray) point_offset in
      let normal := vec3_sub point (center sphere) in
      (t, Some {| point := point; normal := vec3_normalize normal |}).

(** ** Pixels and the image buffer *)

(** Modelled from the spec: [image.h] is not part of the sources at hand.
    Section 6 of the specification describes the buffer as a grid of
    [width * height] pixel slots of three 8-bit channels, cleared to a
    background colour before rendering and written by one operation, "set
    the pixel at (x, y)".  The grid is stored here row by row. *)
Record rgb_pixel : Type := { r : Z; g : Z; b : Z }.

Record rgb_image : Type := {
  width : nat;
  height : nat;
  data : list rgb_pixel
}.

Definition rgb_image_alloc (w h : nat) : rgb_image :=
  {| width := w; height := h; data := replicate (h * w)%nat {| r := 0; g := 0; b := 0 |} |}.

Definition rgb_image_clear (image : rgb_image) (color : rgb_pixel) : rgb_image :=
  {| width := width image; height := height image;
     data := replicate (height image * width image)%nat color |}.

Definition rgb_image_set (image : rgb_image) (x y : nat) (color : rgb_pixel)
  : rgb_image :=
  {| width := width image; height := height image;
     data := <[ (y * width image + x)%nat := color ]> (data image) |}.

Definition rgb_image_get (image : rgb_image) (x y : nat) : option rgb_pixel :=
  data image !! (y * width image + x)%nat.

(** [normal_color] maps a normal to a colour; [main] does not call it. *)
Definition normal_color (normal : vec3) : option rgb_pixel :=
  let nx := (vx normal + 1) / 2 in
  let ny := (vy normal + 1) / 2 in
  let nz := (vz normal + 1) / 2 in
  res_r ← uint8_of_double (nx * 255);
  res_g ← uint8_of_double (ny * 255);
  res_b ← uint8_of_double (nz * 255);
  Some {| r := res_r; g := res_g; b := res_b |}.

(** The result is the conversion of [light_comp * 255] to [uint8_t]. *)
Definition translate_light_component (light_comp : float) : option Z :=
  let light_comp := if light_comp <? 0 then 0 else light_comp in
  let light_comp := if light_comp >? 1 then 1 else light_comp in
  uint8_of_double (light_comp * 255).

Definition rgb_color_from_light (light : vec3) : option rgb_pixel :=
  res_r ← translate_light_component (vx light);
  res_g ← translate_light_component (vy light);
  res_b ← translate_light_component (vz light);
  Some {| r := res_r; g := res_g; b := res_b |}.

(** ** The render driver: the body of [main] *)

(** The nearest-hit search of one pixel: the state of the loop over the
    spheres is the best distance so far and the intersection that goes with
    it ([None] as long as [best_intersection] was never assigned, or was
    assigned from an [intersection] that [sphere_ray_intersect] left
    unwritten). *)
Definition nearest_step (ray : ray) (best : float * option intersection)
    (sphere : sphere) : float * option intersection :=
  let '(intersection_dist, intersection) := sphere_ray_intersect ray sphere in
  if intersection_dist >=? best.1 then best
  else (intersection_dist, intersection).

Definition nearest_intersection (ray : ray) (spheres : list sphere)
  : float * option intersection :=
  foldl (nearest_step ray) (INFINITY, None) spheres.

(** The material constants declared inside the pixel loop. *)
Definition diffuse_kn : float := 0.20.
Definition surface_color : vec3 := mk_vec3 0.75 0.125 0.125.
Definition spec_n : float := 10.
Definition spec_ks : float := 0.20.
Definition ambient_intensity : float := 0.1.

Section Shading.

(** libm's power function. *)
Variable pow : float -> float -> float.

(** The light of the scene: locals of [main] set before the loops. *)
Variable light_color : vec3.
Variable light_direction : vec3.
Variable light_intensity : float.

Definition diffuse_contribution (normal : vec3) : vec3 :=
  let light := vec3_mul light_color light_intensity in
  let diffuse_light_color := vec3_mul_vec light surface_color in
  let diffuse_intensity := - vec3_dot normal light_direction in
  let diffuse_intensity :=
    if diffuse_intensity <? 0 then 0 else diffuse_intensity in
  vec3_mul diffuse_light_color (diffuse_intensity * diffuse_kn).

Definition specular_contribution (normal ray_direction : vec3) : vec3 :=
  let light_reflection_dir := vec3_reflect light_direction normal in
  let light_reflection_proj := - vec3_dot light_reflection_dir ray_direction in
  if light_reflection_proj <? 0 then mk_vec3 0 0 0
  else
    let spec_coeff := pow light_reflection_proj spec_n * spec_ks in
    vec3_mul light_color spec_coeff.

Definition ambient_contribution : vec3 :=
  vec3_mul surface_color ambient_intensity.

(** Lines 243 to 292: the colour of a hit, in light space. *)
Definition shade (best_intersection : intersection) (ray : ray) : vec3 :=
  let pix_color := mk_vec3 0 0 0 in
  let pix_color := vec3_add pix_color ambient_contribution in
  let pix_color := vec3_add pix_color (diffuse_contribution (normal best_intersection)) in
  vec3_add pix_color (specular_contribution (normal best_intersection) (direction ray)).

Variable camera : camera.
Variable spheres : list sphere.

(** One iteration of the pixel loops, as a function of the image.  The
    result is [None] where C leaves the behaviour undefined: a read of
    the unassigned [best_intersection], or a colour channel whose
    conversion to [uint8_t] is undefined. *)
Definition render_pixel (image : rgb_image) (x y : nat) : option rgb_image :=
  let cam_x := double_of_size_t x / double_of_size_t (width image) - 0.5 in
  let cam_y := double_of_size_t y / double_of_size_t (height image) - 0.5 in
  let ray := camera_cast_ray camera cam_x cam_y in
  let '(best_intersection_dist, best_intersection) :=
    nearest_intersection ray spheres in
  if isinf best_intersection_dist then Some image
  else
    best_intersection ← best_intersection;
    color ← rgb_color_from_light (shade best_intersection ray);
    Some (rgb_image_set image x y color).

(** [for (i = start; i < start + count; i++) body], stopping at the first
    undefined step. *)
Fixpoint for_range {S : Type} (body : nat -> S -> option S)
    (start count : nat) (s : S) : option S :=
  match count with
  | O => Some s
  | Datatypes.S count' =>
      s' ← body start s; for_range body (Datatypes.S start) count' s'
  end.

Definition render_row (y : nat) (image : rgb_image) : option rgb_image :=
  for_range (fun x image => render_pixel image x y) 0 (width image) image.

Definition render (image : rgb_image) : option rgb_image :=
  for_range render_row 0 (height image) image.

End Shading.

(** The scene compiled into [main], and the image it renders (the file
    output that follows is outside the pipeline). *)
Definition main_spheres : list sphere :=
  [ {| center := mk_vec3 0 10 0; radius := 4 |} ].

Definition main_image (tan : float -> float) (pow : float -> float -> float)
  : option rgb_image :=
  let image := rgb_image_alloc 1920 1080 in
  let bg_color := {| r := 0; g := 0; b := 0 |} in
  let image := rgb_image_clear image bg_color in
  let cam_width := 10 in
  let cam_height :=
    cam_width * double_of_size_t (height image) / double_of_size_t (width image) in
  let camera :=
    {| cam_center := mk_vec3 0 0 0;
       forward := mk_vec3 0 1 0;
       up := mk_vec3 0 0 1;
       cam_width := cam_width;
       cam_height := cam_height;
       focal_distance := focal_distance_from_fov tan cam_width 80 |} in
  let light_color := mk_vec3 1 1 0 in
  let light_direction := vec3_normalize (mk_vec3 (-1) 1 1) in
  let light_intensity := 5 in
  render pow light_color light_direction light_intensity camera main_spheres image.

(** * Vocabulary of the statements *)

(** ** The result of [sphere_ray_intersect] on the path that reaches its end *)

(** The distance chosen among the two roots... *)
Definition sri_t (ray : ray) (sphere : sphere) : float :=
  if sri_t0 ray sphere <? 0 then sri_t1 ray sphere else sri_t0 ray sphere.

(** ... and the record written through the out-parameter. *)
Definition sri_hit (ray : ray) (sphere : sphere) : intersection :=
  let point := vec3_add (source ray) (vec3_mul (direction ray) (sri_t ray sphere)) in
  {| point := point; normal := vec3_normalize (vec3_sub point (center sphere)) |}.

(** The distance [sphere_ray_intersect] returns. *)
Definition hit_distance (ray : ray) (sphere : sphere) : float :=
  (sphere_ray_intersect ray sphere).1.

(** ** Signs and order of binary64 specifications *)

(** A specification that is [nan] or carries the sign [s]. *)
Definition SF_signed (s : bool) (x : spec_float) : Prop :=
  match x with
  | S754_nan => True
  | S754_zero s' | S754_infinity s' | S754_finite s' _ _ => s' = s
  end.

(** A specification that is [nan], a zero of either sign, or positive. *)
Definition SF_nonneg (x : spec_float) : Prop :=
  match x with
  | S754_nan | S754_zero _ => True
  | S754_infinity s | S754_finite s _ _ => s = false
  end.

Definition SF_is_nan (x : spec_float) : bool :=
  match x with S754_nan => true | _ => false end.

Definition SF_is_inf (x : spec_float) : bool :=
  match x with S754_infinity _ => true | _ => false end.

(** The numbers that are not [nan] are ordered as these integer triples
    are, lexicographically: sign class, then exponent, then mantissa. *)
Definition SFkey (x : spec_float) : Z * Z * Z :=
  match x with
  | S754_nan => (0, 0, 0)%Z
  | S754_zero _ => (0, 0, 0)%Z
  | S754_infinity true => (-2, 0, 0)%Z
  | S754_infinity false => (2, 0, 0)%Z
  | S754_finite true m e => (-1, - e, Z.neg m)%Z
  | S754_finite false m e => (1, e, Z.pos m)%Z
  end.

Definition key (a : float) : Z * Z * Z := SFkey (Prim2SF a).

Definition lex_lt (a b : Z * Z * Z) : Prop :=
  (a.1.1 < b.1.1 \/ a.1.1 = b.1.1 /\ (a.1.2 < b.1.2 \/ a.1.2 = b.1.2 /\ a.2 < b.2))%Z.

Definition lex_le (a b : Z * Z * Z) : Prop := lex_lt a b \/ a = b.

Definition lex_compare (a b : Z * Z * Z) : comparison :=
  match (a.1.1 ?= b.1.1)%Z with
  | Eq => match (a.1.2 ?= b.1.2)%Z with Eq => (a.2 ?= b.2)%Z | c => c end
  | c => c
  end.

(** Rewrites the integer operations of [SpecFloat] as those of [ZArith],
    which [lia] and the lemmas on [Z] know. *)
Ltac to_binint :=
  change IntDef.Z.add with Z.add in *; change IntDef.Z.sub with Z.sub in *;
  change IntDef.Z.opp with Z.opp in *; change IntDef.Z.leb with Z.leb in *;
  change IntDef.Z.eqb with Z.eqb in *; change PosDef.Pos.mul with Pos.mul in *.

(** ** Vectors of light *)

Definition vec3_is_zero (a : vec3) : bool :=
  is_zero (vx a) && is_zero (vy a) && is_zero (vz a).

Definition vec3_is_finite (a : vec3) : bool :=
  is_finite (vx a) && is_finite (vy a) && is_finite (vz a).

(** [c] is the larger of [0] and [a]: the reading of [max(0, a)] that does
    not depend on the sign of a zero. *)
Definition is_max0 (a c : float) : Prop :=
  (0 <=? c) = true /\ (a <=? c) = true /\ (c = 0 \/ c = a).

(** ** The words of the specification *)

(** Degrees to radians. *)
Definition deg_to_rad (deg : float) : float := deg * M_PI / 180.

(** Clamping to [0, 1]. *)
Definition clamp01 (a : float) : float :=
  if a <? 0 then 0 else if a >? 1 then 1 else a.

(** Tone mapping in the order of the specification: clamp, then scale. *)
Definition clamp_then_scale (a : float) : option Z :=
  uint8_of_double (clamp01 a * 255).

(** The opposite order: scale, then clamp. *)
Definition scale_then_clamp (a : float) : option Z :=
  uint8_of_double (clamp01 (a * 255)).

(** ** The render driver, pixel by pixel *)

(** The ray cast through pixel [(x, y)]. *)
Definition pixel_ray (camera : camera) (image : rgb_image) (x y : nat) : ray :=
  camera_cast_ray camera
    (double_of_size_t x / double_of_size_t (width image) - 0.5)
    (double_of_size_t y / double_of_size_t (height image) - 0.5).

(** The test [isinf(best_intersection_dist)] of pixel [(x, y)]. *)
Definition pixel_misses (camera : camera) (spheres : list sphere)
    (image : rgb_image) (x y : nat) : bool :=
  isinf (nearest_intersection (pixel_ray camera image x y) spheres).1.

Definition same_size (a b : rgb_image) : Prop :=
  width a = width b /\ height a = height b.

(** An image of [w] by [h] pixels whose pixel [(x, y)] holds [c]. *)
Definition keeps (w h x y : nat) (c : option rgb_pixel) (image : rgb_image)
  : Prop :=
  width image = w /\ height image = h /\ rgb_image_get image x y = c.

(** ** Scenes used as examples *)

(** The sphere of [main]. *)
Definition main_sphere : sphere := {| center := mk_vec3 0 10 0; radius := 4 |}.

(** The ray through the centre of the image of [main]'s camera. *)
Definition axis_ray : ray :=
  {| source := mk_vec3 0 0 0; direction := mk_vec3 0 1 0 |}.

(** A ray from the origin aimed at the centre of the unit sphere around
    (1, 1, 1), its direction normalized as [camera_cast_ray] does. *)
Definition aimed_ray : ray :=
  {| source := mk_vec3 0 0 0; direction := vec3_normalize (mk_vec3 1 1 1) |}.

Definition unit_sphere_111 : sphere :=
  {| center := mk_vec3 1 1 1; radius := 1 |}.

(** A small sphere far along the axis and one unit above it: [axis_ray]
    passes at distance 1 from its centre, twice its radius. *)
Definition offset_sphere : sphere :=
  {| center := mk_vec3 0 134217728 1; radius := 0.5 |}.

(** A ray that starts inside the sphere of [main], two units before its
    centre. *)
Definition inner_ray : ray :=
  {| source := mk_vec3 0 8 0; direction := mk_vec3 0 1 0 |}.

(** A sphere that [aimed_ray] hits off its centre. *)
Definition far_sphere : sphere := {| center := mk_vec3 4 4 5; radius := 2 |}.

(** A sphere on the axis so far away that the square of its distance
    overflows. *)
Definition distant_sphere : sphere :=
  {| center := mk_vec3 0 1e200 0; radius := 4 |}.

(** A second sphere met by [axis_ray] at distance 6, as [main_sphere] is. *)
Definition tie_sphere : sphere := {| center := mk_vec3 0 11 0; radius := 5 |}.

(** The camera of the example of section 8 of the specification, for a
    focal distance [f]. *)
Definition example_camera (f : float) : camera :=
  {| cam_center := mk_vec3 0 0 0;
     forward := mk_vec3 0 1 0;
     up := mk_vec3 0 0 1;
     cam_width := 10;
     cam_height := 10;
     focal_distance := f |}.

(** The tangent at the argument [main] passes to [tan], the double
    [deg_to_rad 80 / 2 = 0x1.657184ae74487p-1], rounded to the nearest
    double: the tangent there is 0.83909963117727994437..., and this is the
    value a correctly rounding libm returns. *)
Definition tan_40_degrees : float := 0x1.ad9e7783fbf1dp-1.

(** The focal distance [main] computes with it, [(10 / 2) / tan]:
    5.95876796297105. *)
Definition main_focal_distance : float := 0x1.7d5c744d5a71ep+2.

(** The camera of [main], whose image plane has the proportions 16:9. *)
Definition main_camera : camera :=
  {| cam_center := mk_vec3 0 0 0;
     forward := mk_vec3 0 1 0;
     up := mk_vec3 0 0 1;
     cam_width := 10;
     cam_height := 5.625;
     focal_distance := main_focal_distance |}.

(** The light of [main]. *)
Definition main_light_color : vec3 := mk_vec3 1 1 0.
Definition main_light_direction : vec3 := vec3_normalize (mk_vec3 (-1) 1 1).
Definition main_light_intensity : float := 5.

(** A stand-in for libm's [pow] at the exponent [spec_n = 10]: ten factors,
    by repeated squaring. *)
Definition pow_by_squaring (a n : float) : float :=
  let a2 := a * a in let a4 := a2 * a2 in let a8 := a4 * a4 in a8 * a2.

(** A cleared image of 16 by 9 pixels. *)
Definition small_image : rgb_image :=
  rgb_image_clear (rgb_image_alloc 16 9) {| r := 0; g := 0; b := 0 |}.

(** ** The ray-sphere equation, in exact arithmetic *)

Section Exact.

Import Reals.

(** The real number a binary64 number stands for ([0] for what is not
    finite). *)
Definition SF2R (x : spec_float) : R :=
  match x with
  | S754_finite s m e => (IZR (cond_Zopp s (Z.pos m)) * powerRZ 2 e)%R
  | _ => 0%R
  end.

Definition real_of (a : float) : R := SF2R (Prim2SF a).

(** The point at distance [t] along [ray] lies on [sphere]:
    [|source + t * direction - center|^2 = radius^2], over the reals. *)
Definition on_sphere (ray : ray) (sphere : sphere) (t : R) : Prop :=
  let p (f : vec3 -> float) :=
    (real_of (f (source ray)) + t * real_of (f (direction ray))
     - real_of (f (center sphere)))%R in
  (p vx * p vx + p vy * p vy + p vz * p vz
   = real_of (radius sphere) * real_of (radius sphere))%R.

(** C1, as stated: a finite distance returned is the smallest root of the
    ray-sphere equation that is not negative. *)
Definition root_claim (ray : ray) (sphere : sphere) : Prop :=
  is_finite (hit_distance ray sphere) = true ->
  let t := real_of (hit_distance ray sphere) in
  (0 <= t)%R /\ on_sphere ray sphere t
  /\ forall t', (0 <= t')%R -> on_sphere ray sphere t' -> (t <= t')%R.

End Exact.

(** ** The claims that fail, as they are stated *)

(** C2, as stated: the sentinel is returned exactly when [projection < 0]
    or [d > radius], and every other result is a finite distance. *)
Definition sentinel_claim (ray : ray) (sphere : sphere) : Prop :=
  let t := hit_distance ray sphere in
  (t = INFINITY <->
   (sri_projection ray sphere <? 0) = true \/
   (sri_d ray sphere >? radius sphere) = true)
  /\ (t <> INFINITY -> is_finite t = true).

(** C3, as stated: the search ends on the smallest finite distance among
    the spheres tested... *)
Definition nearest_claim (ray : ray) (spheres : list sphere) : Prop :=
  let best := nearest_intersection ray spheres in
  forall s, s ∈ spheres -> is_finite (hit_distance ray s) = true ->
    is_finite best.1 = true /\ (best.1 <=? hit_distance ray s) = true.

(** ... and a sphere replaces the current best only if its distance is
    strictly smaller. *)
Definition replaces_only_if_smaller (ray : ray)
    (best : float * option intersection) (sphere : sphere) : Prop :=
  nearest_step ray best sphere <> best ->
  (hit_distance ray sphere <? best.1) = true.

(** ** The invariant of the nearest-hit search *)

(** The state of the search after the spheres of [l], none of which
    reported [nan]: the best distance is a number and a lower bound of the
    distances of [l]; it is still the initial sentinel, or it is the result
    of the first sphere of [l] that reaches this bound. *)
Definition nearest_inv (ray : ray) (l : list sphere)
    (best : float * option intersection) : Prop :=
  is_nan best.1 = false
  /\ (forall s, s ∈ l -> (best.1 <=? hit_distance ray s) = true)
  /\ (best = (INFINITY, None) \/
      exists k s, l !! k = Some s /\ sphere_ray_intersect ray s = best
        /\ is_finite best.1 = true
        /\ forall j s', (j < k)%nat -> l !! j = Some s' ->
             (best.1 <? hit_distance ray s') = true).

(** ** Surfaces used as examples *)

(** The hit of [axis_ray] on [main_sphere]. *)
Definition axis_hit : intersection :=
  {| point := mk_vec3 0 6 0; normal := mk_vec3 0 (-1) 0 |}.

(** A surface that faces the light of [main], seen along the light. *)
Definition lit_hit : intersection :=
  {| point := mk_vec3 0 6 0;
     normal := mk_vec3 (- vx main_light_direction) (- vy main_light_direction)
                 (- vz main_light_direction) |}.

Definition lit_ray : ray :=
  {| source := mk_vec3 0 0 0; direction := main_light_direction |}.


(** * Vocabulary of the further properties *)

(** A vector of light one of whose channels is [nan]. *)
Definition vec3_has_nan (a : vec3) : bool :=
  is_nan (vx a) || is_nan (vy a) || is_nan (vz a).

(** A vector all of whose components are [nan]. *)
Definition vec3_all_nan (a : vec3) : bool :=
  is_nan (vx a) && is_nan (vy a) && is_nan (vz a).

(** The colour the body of the pixel loops computes for pixel [(x, y)] past
    the test [isinf(best_intersection_dist)]: the shading of the nearest
    hit, turned into a pixel. *)
Definition pixel_color (pow : float -> float -> float)
    (light_color light_direction : vec3) (light_intensity : float)
    (camera : camera) (spheres : list sphere) (image : rgb_image)
    (x y : nat) : option rgb_pixel :=
  let ray := pixel_ray camera image x y in
  best_intersection ← (nearest_intersection ray spheres).2;
  rgb_color_from_light
    (shade pow light_color light_direction light_intensity best_intersection ray).

(** An image whose pixel array has one cell for each pixel. *)
Definition image_wf (image : rgb_image) : Prop :=
  length (data image) = (height image * width image)%nat.

(** The state of the image when the pixel loops reach the pixel of index
    [n], rows first: the pixels before it hold their final colour, the
    others what they held in [image]. *)
Definition rendered_upto (pow : float -> float -> float)
    (light_color light_direction : vec3) (light_intensity : float)
    (camera : camera) (spheres : list sphere) (image : rgb_image) (n : nat)
    (t : rgb_image) : Prop :=
  same_size t image /\ length (data t) = length (data image)
  /\ forall x y, (x < width image)%nat -> (y < height image)%nat ->
       rgb_image_get t x y =
       if (y * width image + x <? n)%nat then
         if pixel_misses camera spheres image x y then rgb_image_get image x y
         else pixel_color pow light_color light_direction light_intensity
                camera spheres image x y
       else rgb_image_get image x y.

(** The camera [main] builds when [tan] returns 0, for a field of view of
    0 degrees: the focal distance is [5 / 0]. *)
Definition blind_camera : camera :=
  {| cam_center := mk_vec3 0 0 0;
     forward := mk_vec3 0 1 0;
     up := mk_vec3 0 0 1;
     cam_width := 10;
     cam_height := 5.625;
     focal_distance := infinity |}.

(** A stand-in for [tan] around 0, where the tangent of a number is the
    number to the first order; it is exact at 0, as C's is. *)
Definition tan_near_zero (a : float) : float := a.

(** ** The rendering of [main], checked pixel by pixel *)

(** A specification that is a zero or a finite number below [2 ^ k] in
    absolute value. *)
Definition SF_below (k : Z) (x : spec_float) : Prop :=
  match x with
  | S754_zero _ => True
  | S754_finite _ m e => (Z.pos (digits2_pos m) + e <= k)%Z
  | _ => False
  end.

(** The part of the shading of a hit that does not depend on [pow]: the
    ambient and the diffuse terms under the light of [main]. *)
Definition lit_part (best_intersection : intersection) : vec3 :=
  vec3_add (vec3_add (mk_vec3 0 0 0) ambient_contribution)
    (diffuse_contribution main_light_color main_light_direction
       main_light_intensity (normal best_intersection)).

(** The cosine that [pow] is applied to, for a hit seen along [ray]. *)
Definition specular_proj (best_intersection : intersection) (ray : ray) : float :=
  - vec3_dot (vec3_reflect main_light_direction (normal best_intersection))
      (direction ray).

(** A ray that misses the spheres of [main], or hits with a finite
    ambient and diffuse part and a cosine that is negative or at most 2. *)
Definition ray_ok (ray : ray) : bool :=
  let best := nearest_intersection ray main_spheres in
  isinf best.1 ||
  match best.2 with
  | None => false
  | Some best_intersection =>
      vec3_is_finite (lit_part best_intersection)
      && ((specular_proj best_intersection ray <? 0)
          || ((0 <=? specular_proj best_intersection ray)
              && (specular_proj best_intersection ray <=? 2)))
  end.

(** The camera of [main] for a focal distance [f]. *)
Definition main_camera_at (f : float) : camera :=
  {| cam_center := mk_vec3 0 0 0;
     forward := mk_vec3 0 1 0;
     up := mk_vec3 0 0 1;
     cam_width := 10;
     cam_height := 5.625;
     focal_distance := f |}.

(** The ray of pixel [(x, y)] of the image of [main], 1920 by 1080. *)
Definition main_pixel_ray (f : float) (x y : Z) : ray :=
  camera_cast_ray (main_camera_at f)
    (of_uint63 (Uint63.of_Z x) / 1920 - 0.5)
    (of_uint63 (Uint63.of_Z y) / 1080 - 0.5).

(** [f z && f (z + 1) && ...], [n] times. *)
Fixpoint all_from (n : nat) (z : Z) (f : Z -> bool) : bool :=
  match n with
  | O => true
  | S n' => f z && all_from n' (z + 1)%Z f
  end.

(** The double next above [tan_40_degrees]: the tangent at the argument
    of [main] lies between the two, 0.17 of their distance above
    [tan_40_degrees], so that these are the two results within one unit in
    the last place of it.  The focal distance is then one unit in the last
    place smaller. *)
Definition tan_40_degrees_up : float := 0x1.ad9e7783fbf1ep-1.
Definition main_focal_distance_low : float := 0x1.7d5c744d5a71dp+2.

(** A tangent computed in binary64, by Lambert's continued fraction
    [tan a = a / (1 - a^2 / (3 - a^2 / (5 - ...)))], cut after [n] levels
    below the odd number [k]. *)
Fixpoint tan_fraction (n : nat) (k a2 : float) : float :=
  match n with
  | O => k
  | S n' => k - a2 / tan_fraction n' (k + 2) a2
  end.

Definition tan_lambert (a : float) : float := a / tan_fraction 10 1 (a * a).

(** * Facts of binary64 arithmetic

    [FloatAxioms] relates each primitive operation to its specification on
    [spec_float]; the facts below are read off those specifications. *)

Module B64.

(** ** Classification of a number by its specification *)

Lemma SFcompare_refl x : x <> S754_nan -> SFcompare x x = Some Eq.
Proof.
  destruct x as [s|s| |s m e]; simpl; [by destruct s..|done|intros _].
  rewrite Z.compare_refl, Pos.compare_cont_refl. by destruct s.
Qed.

Lemma is_nan_SF a :
  is_nan a = match Prim2SF a with S754_nan => true | _ => false end.
Proof.
  unfold is_nan. rewrite FloatAxioms.eqb_spec. unfold SFeqb.
  destruct (Prim2SF a) eqn:E; [rewrite SFcompare_refl by done..|idtac|rewrite SFcompare_refl by done]; done.
Qed.

Lemma is_infinity_SF a :
  is_infinity a = match Prim2SF a with S754_infinity _ => true | _ => false end.
Proof.
  unfold is_infinity. rewrite FloatAxioms.eqb_spec, abs_spec.
  change (Prim2SF infinity) with (S754_infinity false).
  by destruct (Prim2SF a) as [s|s| |s m e].
Qed.

Lemma is_finite_SF a :
  is_finite a =
  match Prim2SF a with S754_zero _ | S754_finite _ _ _ => true | _ => false end.
Proof.
  unfold is_finite. rewrite is_nan_SF, is_infinity_SF.
  by destruct (Prim2SF a).
Qed.

Lemma ltb_0_SF a :
  (a <? 0) =
  match Prim2SF a with
  | S754_infinity true | S754_finite true _ _ => true
  | _ => false
  end.
Proof.
  rewrite FloatAxioms.ltb_spec. change (Prim2SF 0) with (S754_zero false).
  by destruct (Prim2SF a) as [s|s| |s m e]; try destruct s.
Qed.

Lemma leb_0_SF a :
  (0 <=? a) =
  match Prim2SF a with
  | S754_nan | S754_infinity true | S754_finite true _ _ => false
  | _ => true
  end.
Proof.
  rewrite FloatAxioms.leb_spec. change (Prim2SF 0) with (S754_zero false).
  by destruct (Prim2SF a) as [s|s| |s m e]; try destruct s.
Qed.

(** [a < 0] excludes [0 <= a]; short of [nan], one of the two holds. *)
Lemma ltb_0_leb_0 a : (a <? 0) = true -> (0 <=? a) = false.
Proof.
  rewrite ltb_0_SF, leb_0_SF.
  by destruct (Prim2SF a) as [s|s| |s m e]; try destruct s.
Qed.

Lemma not_ltb_0_leb_0 a :
  (a <? 0) = false -> is_nan a = false -> (0 <=? a) = true.
Proof.
  rewrite ltb_0_SF, leb_0_SF, is_nan_SF.
  by destruct (Prim2SF a) as [s|s| |s m e]; try destruct s.
Qed.

Lemma is_finite_not_nan a : is_finite a = true -> is_nan a = false.
Proof. rewrite is_finite_SF, is_nan_SF. by destruct (Prim2SF a). Qed.

Lemma is_finite_not_inf a : is_finite a = true -> is_infinity a = false.
Proof. rewrite is_finite_SF, is_infinity_SF. by destruct (Prim2SF a). Qed.

Lemma is_nan_not_finite a : is_nan a = true -> is_finite a = false.
Proof. rewrite is_finite_SF, is_nan_SF. by destruct (Prim2SF a). Qed.

(** ** [nan] propagates through the operations *)

Lemma is_nan_add_l a b : is_nan a = true -> is_nan (a + b) = true.
Proof.
  rewrite !is_nan_SF, add_spec. by destruct (Prim2SF a).
Qed.

Lemma is_nan_add_r a b : is_nan b = true -> is_nan (a + b) = true.
Proof.
  rewrite !is_nan_SF, add_spec.
  destruct (Prim2SF b); try done. by destruct (Prim2SF a).
Qed.

Lemma is_nan_sub_l a b : is_nan a = true -> is_nan (a - b) = true.
Proof.
  rewrite !is_nan_SF, sub_spec. by destruct (Prim2SF a).
Qed.

Lemma is_nan_sub_r a b : is_nan b = true -> is_nan (a - b) = true.
Proof.
  rewrite !is_nan_SF, sub_spec.
  destruct (Prim2SF b); try done. by destruct (Prim2SF a).
Qed.

Lemma is_nan_mul_l a b : is_nan a = true -> is_nan (a * b) = true.
Proof.
  rewrite !is_nan_SF, mul_spec. by destruct (Prim2SF a).
Qed.

Lemma is_nan_mul_r a b : is_nan b = true -> is_nan (a * b) = true.
Proof.
  rewrite !is_nan_SF, mul_spec.
  destruct (Prim2SF b); try done. by destruct (Prim2SF a).
Qed.

Lemma is_nan_sqrt a : is_nan a = true -> is_nan (sqrt a) = true.
Proof.
  rewrite !is_nan_SF, sqrt_spec. by destruct (Prim2SF a).
Qed.

(** ** Signs *)

Lemma SF_signed_nonneg x : SF_signed false x -> SF_nonneg x.
Proof. by destruct x. Qed.

Lemma SF_nonneg_leb a :
  SF_nonneg (Prim2SF a) <-> is_nan a = true \/ (0 <=? a) = true.
Proof.
  rewrite is_nan_SF, leb_0_SF.
  destruct (Prim2SF a) as [s|s| |s m e]; try destruct s; simpl; intuition congruence.
Qed.

(** Rounding keeps the sign it is given. *)
Lemma binary_round_aux_signed s m e l :
  SF_signed s (binary_round_aux prec emax s m e l).
Proof.
  unfold binary_round_aux.
  destruct (shr_fexp _ _ m e l) as [mrs' e'].
  destruct (shr_fexp _ _ _ e' loc_Exact) as [mrs'' e''].
  destruct (shr_m mrs''); [done| |done].
  by destruct (_ <=? _)%Z.
Qed.

Lemma binary_round_signed s m e : SF_signed s (binary_round prec emax s m e).
Proof.
  unfold binary_round. destruct (shl_align _ _ _) as [mz ez].
  apply binary_round_aux_signed.
Qed.

Lemma SFadd_nonneg x y :
  SF_nonneg x -> SF_nonneg y -> SF_nonneg (SF64add x y).
Proof.
  destruct x as [sx|sx| |sx mx ex], y as [sy|sy| |sy my ey]; simpl;
    try done; try (intros -> ->; done); try (intros _ ->; done);
    try (intros -> _; done).
  - by destruct sx, sy.
  - intros -> ->. simpl. apply SF_signed_nonneg, binary_round_signed.
Qed.

Lemma SFsqrt_nonneg x : SF_nonneg (SF64sqrt x).
Proof.
  destruct x as [sx|sx| |sx mx ex]; simpl; try done.
  - by destruct sx.
  - destruct sx; [done|].
    destruct (SFsqrt_core_binary _ _ _ _) as [[mz ez] lz].
    apply SF_signed_nonneg, binary_round_aux_signed.
Qed.

(** The sum of two numbers that are not negative is not negative. *)
Lemma add_nonneg a b :
  (0 <=? a) = true -> (0 <=? b) = true ->
  is_nan (a + b) = true \/ (0 <=? a + b) = true.
Proof.
  intros Ha Hb. apply SF_nonneg_leb. rewrite add_spec.
  apply SFadd_nonneg; apply SF_nonneg_leb; by right.
Qed.

(** A square root is never negative. *)
Lemma sqrt_nonneg a : is_nan (sqrt a) = true \/ (0 <=? sqrt a) = true.
Proof. apply SF_nonneg_leb. rewrite sqrt_spec. apply SFsqrt_nonneg. Qed.

(** ** Rounding never invents [nan] *)

Lemma shr_1_nonneg mrs : (0 <= shr_m mrs)%Z -> (0 <= shr_m (shr_1 mrs))%Z.
Proof. destruct mrs as [[|[p|p|]|p] r s]; simpl; lia. Qed.

Lemma iter_shr_1_nonneg p mrs :
  (0 <= shr_m mrs)%Z -> (0 <= shr_m (SpecFloat.iter_pos shr_1 p mrs))%Z.
Proof.
  revert mrs. induction p as [p IH|p IH|]; intros mrs H; simpl.
  - by apply IH, IH, shr_1_nonneg.
  - by apply IH, IH.
  - by apply shr_1_nonneg.
Qed.

Lemma shr_fexp_nonneg m e l :
  (0 <= m)%Z -> (0 <= shr_m (shr_fexp prec emax m e l).1)%Z.
Proof.
  intros H. unfold shr_fexp, shr.
  assert (H0 : (0 <= shr_m (shr_record_of_loc m l))%Z) by (by destruct l as [|[]]).
  destruct (_ - _)%Z; simpl; [done| |done].
  by apply iter_shr_1_nonneg.
Qed.

Lemma round_nearest_even_nonneg m l : (0 <= m)%Z -> (0 <= round_nearest_even m l)%Z.
Proof.
  intros H. destruct l as [|[]]; simpl; try lia.
  destruct (Z.even m); lia.
Qed.

Lemma binary_round_aux_not_nan s m e l :
  (0 <= m)%Z -> binary_round_aux prec emax s m e l <> S754_nan.
Proof.
  intros H. unfold binary_round_aux.
  pose proof (shr_fexp_nonneg m e l H) as H1.
  destruct (shr_fexp _ _ m e l) as [mrs' e']. simpl in H1.
  pose proof (shr_fexp_nonneg _ e' loc_Exact
                (round_nearest_even_nonneg _ (loc_of_shr_record mrs') H1)) as H2.
  destruct (shr_fexp _ _ _ e' loc_Exact) as [mrs'' e'']. simpl in H2.
  destruct (shr_m mrs''); [done| |lia].
  by destruct (_ <=? _)%Z.
Qed.

Lemma binary_normalize_not_nan m e s :
  binary_normalize prec emax m e s <> S754_nan.
Proof.
  destruct m as [|p|p]; simpl; [done| |];
    unfold binary_round; destruct (shl_align _ _ _); by apply binary_round_aux_not_nan.
Qed.

(** A sum of numbers that are not negative is [nan] only if one of them is. *)
Lemma SFadd_nonneg_nan x y :
  SF_nonneg x -> SF_nonneg y ->
  SF_is_nan (SF64add x y) = SF_is_nan x || SF_is_nan y.
Proof.
  destruct x as [sx|sx| |sx mx ex], y as [sy|sy| |sy my ey]; simpl; try done;
    try (by destruct sx, sy); try (by intros -> ->).
  intros _ _. by destruct (binary_normalize _ _ _ _ _) eqn:E;
    [..|by apply binary_normalize_not_nan in E|].
Qed.

(** A difference of numbers that are not negative is [nan] only if one of
    them is, or if both are infinite. *)
Lemma SFsub_nonneg_nan x y :
  SF_nonneg x -> SF_nonneg y ->
  SF_is_nan (SF64sub x y) =
  SF_is_nan x || SF_is_nan y || (SF_is_inf x && SF_is_inf y).
Proof.
  destruct x as [sx|sx| |sx mx ex], y as [sy|sy| |sy my ey]; simpl; try done;
    try (by destruct sx, sy); try (by intros -> ->); try (by destruct sx).
  intros _ _. by destruct (binary_normalize _ _ _ _ _) eqn:E;
    [..|by apply binary_normalize_not_nan in E|].
Qed.

Lemma not_ltb_0_nonneg a : (a <? 0) = false -> SF_nonneg (Prim2SF a).
Proof.
  rewrite ltb_0_SF. by destruct (Prim2SF a) as [s|s| |s m e]; try destruct s.
Qed.

Lemma is_nan_add_nonneg a b :
  SF_nonneg (Prim2SF a) -> SF_nonneg (Prim2SF b) ->
  is_nan (a + b) = is_nan a || is_nan b.
Proof.
  intros Ha Hb. rewrite !is_nan_SF, add_spec.
  apply (SFadd_nonneg_nan _ _ Ha Hb).
Qed.

Lemma is_nan_sub_nonneg a b :
  SF_nonneg (Prim2SF a) -> SF_nonneg (Prim2SF b) ->
  is_nan (a - b) = is_nan a || is_nan b || (is_infinity a && is_infinity b).
Proof.
  intros Ha Hb. rewrite !is_nan_SF, !is_infinity_SF, sub_spec.
  apply (SFsub_nonneg_nan _ _ Ha Hb).
Qed.

(** ** Order *)

Lemma SFcompare_key x y :
  x <> S754_nan -> y <> S754_nan ->
  SFcompare x y = Some (lex_compare (SFkey x) (SFkey y)).
Proof.
  destruct x as [sx|sx| |sx mx ex], y as [sy|sy| |sy my ey]; try done; intros _ _;
    try (by destruct sx); try (by destruct sy); try (by destruct sx, sy).
  destruct sx, sy; unfold lex_compare; simpl; try done.
  rewrite Z.compare_opp, (Z.compare_antisym ex ey).
  by destruct (ex ?= ey)%Z.
Qed.

Lemma lex_compare_Lt a b : lex_compare a b = Lt <-> lex_lt a b.
Proof.
  destruct a as [[a1 a2] a3], b as [[b1 b2] b3]. unfold lex_compare, lex_lt. simpl.
  destruct (Z.compare_spec a1 b1), (Z.compare_spec a2 b2), (Z.compare_spec a3 b3);
    split; try done; try lia.
Qed.

Lemma lex_compare_Eq a b : lex_compare a b = Eq <-> a = b.
Proof.
  destruct a as [[a1 a2] a3], b as [[b1 b2] b3]. unfold lex_compare. simpl.
  destruct (Z.compare_spec a1 b1), (Z.compare_spec a2 b2), (Z.compare_spec a3 b3);
    split; intros Hab; try done; try (by subst); injection Hab as ? ? ?; lia.
Qed.

Lemma lex_compare_Gt a b : lex_compare a b = Gt <-> lex_lt b a.
Proof.
  destruct a as [[a1 a2] a3], b as [[b1 b2] b3]. unfold lex_compare, lex_lt. simpl.
  destruct (Z.compare_spec a1 b1), (Z.compare_spec a2 b2), (Z.compare_spec a3 b3);
    split; try done; try lia.
Qed.

Lemma Prim2SF_not_nan a : is_nan a = false -> Prim2SF a <> S754_nan.
Proof. rewrite is_nan_SF. by destruct (Prim2SF a). Qed.

Lemma ltb_not_nan a b : (a <? b) = true -> is_nan a = false /\ is_nan b = false.
Proof.
  rewrite FloatAxioms.ltb_spec, !is_nan_SF. unfold SFltb.
  destruct (Prim2SF a), (Prim2SF b); done.
Qed.

Lemma leb_not_nan a b : (a <=? b) = true -> is_nan a = false /\ is_nan b = false.
Proof.
  rewrite FloatAxioms.leb_spec, !is_nan_SF. unfold SFleb.
  destruct (Prim2SF a), (Prim2SF b); done.
Qed.

Lemma ltb_key a b :
  is_nan a = false -> is_nan b = false ->
  (a <? b) = true <-> lex_lt (key a) (key b).
Proof.
  intros Ha%Prim2SF_not_nan Hb%Prim2SF_not_nan.
  rewrite FloatAxioms.ltb_spec. unfold SFltb. rewrite SFcompare_key by done.
  rewrite <- lex_compare_Lt. unfold key. by destruct (lex_compare _ _).
Qed.

Lemma leb_key a b :
  is_nan a = false -> is_nan b = false ->
  (a <=? b) = true <-> lex_le (key a) (key b).
Proof.
  intros Ha%Prim2SF_not_nan Hb%Prim2SF_not_nan.
  rewrite FloatAxioms.leb_spec. unfold SFleb, lex_le. rewrite SFcompare_key by done.
  rewrite <- lex_compare_Lt, <- lex_compare_Eq. unfold key.
  destruct (lex_compare _ _); intuition congruence.
Qed.

Lemma lex_total a b : lex_le a b \/ lex_lt b a.
Proof.
  destruct a as [[a1 a2] a3], b as [[b1 b2] b3]. unfold lex_le, lex_lt. simpl.
  destruct (Z.compare_spec a1 b1), (Z.compare_spec a2 b2), (Z.compare_spec a3 b3);
    subst; try (by left; right); lia.
Qed.

Lemma lex_lt_le_trans a b c : lex_lt a b -> lex_le b c -> lex_lt a c.
Proof.
  intros Hab [Hbc | <-]; [|done]. revert Hab Hbc.
  destruct a as [[a1 a2] a3], b as [[b1 b2] b3], c as [[c1 c2] c3].
  unfold lex_lt. simpl. lia.
Qed.

Lemma lex_le_trans a b c : lex_le a b -> lex_le b c -> lex_le a c.
Proof.
  intros [Hab | <-] Hbc; [|done]. left. by eapply lex_lt_le_trans.
Qed.

(** Short of [nan], [<=] is a total preorder and [<] its strict part. *)
Lemma leb_false_ltb a b :
  is_nan a = false -> is_nan b = false -> (a <=? b) = false -> (b <? a) = true.
Proof.
  intros Ha Hb Hab. apply ltb_key; [done..|].
  destruct (lex_total (key a) (key b)) as [H|H]; [|done].
  apply leb_key in H; [congruence|done..].
Qed.

Lemma ltb_leb_trans a b c : (a <? b) = true -> (b <=? c) = true -> (a <? c) = true.
Proof.
  intros Hab Hbc.
  destruct (ltb_not_nan _ _ Hab) as [Ha Hb], (leb_not_nan _ _ Hbc) as [_ Hc].
  apply ltb_key; [done..|].
  apply (lex_lt_le_trans _ (key b)); [by apply ltb_key|by apply leb_key].
Qed.

Lemma leb_trans a b c : (a <=? b) = true -> (b <=? c) = true -> (a <=? c) = true.
Proof.
  intros Hab Hbc.
  destruct (leb_not_nan _ _ Hab) as [Ha Hb], (leb_not_nan _ _ Hbc) as [_ Hc].
  apply leb_key; [done..|]. apply (lex_le_trans _ (key b)); by apply leb_key.
Qed.

Lemma ltb_leb a b : (a <? b) = true -> (a <=? b) = true.
Proof.
  intros Hab. destruct (ltb_not_nan _ _ Hab) as [Ha Hb].
  apply leb_key; [done..|]. left. by apply ltb_key.
Qed.

Lemma leb_refl a : is_nan a = false -> (a <=? a) = true.
Proof. intros Ha. apply leb_key; [done..|]. by right. Qed.

Lemma ltb_irrefl a : (a <? a) = false.
Proof.
  destruct (a <? a) eqn:E; [|done].
  destruct (ltb_not_nan _ _ E) as [Ha _].
  apply ltb_key in E; [|done..]. revert E.
  destruct (key a) as [[a1 a2] a3]. unfold lex_lt. simpl. lia.
Qed.

Lemma leb_infinity a : is_nan a = false -> (a <=? infinity) = true.
Proof.
  rewrite FloatAxioms.leb_spec, is_nan_SF. change (Prim2SF infinity) with (S754_infinity false).
  by destruct (Prim2SF a) as [s|s| |s m e]; try destruct s.
Qed.

Lemma infinity_leb a : (infinity <=? a) = true -> a = infinity.
Proof.
  rewrite FloatAxioms.leb_spec. change (Prim2SF infinity) with (S754_infinity false).
  intros H. apply Prim2SF_inj. change (Prim2SF infinity) with (S754_infinity false).
  by destruct (Prim2SF a) as [s|s| |s m e]; try destruct s.
Qed.

Lemma ltb_infinity_finite a :
  (a <? infinity) = true -> (0 <=? a) = true -> is_finite a = true.
Proof.
  rewrite FloatAxioms.ltb_spec, leb_0_SF, is_finite_SF.
  change (Prim2SF infinity) with (S754_infinity false).
  by destruct (Prim2SF a) as [s|s| |s m e]; try destruct s.
Qed.

Lemma is_nan_opp a : is_nan (- a) = is_nan a.
Proof. rewrite !is_nan_SF, opp_spec. by destruct (Prim2SF a). Qed.

(** [a], or [0] if [a] is negative, is the larger of [0] and [a]. *)
Lemma cut_is_max0 a :
  is_nan a = false -> is_max0 a (if a <? 0 then 0 else a).
Proof.
  intros Hn. destruct (a <? 0) eqn:E.
  - split_and!; [done|by apply ltb_leb|by left].
  - split_and!; [by apply not_ltb_0_leb_0|by apply leb_refl|by right].
Qed.

Lemma gt_1_not_lt_0 a : (a >? 1) = true -> (a <? 0) = false.
Proof.
  unfold gtb. rewrite FloatAxioms.ltb_spec, ltb_0_SF.
  change (Prim2SF 1) with (S754_finite false 4503599627370496 (-52)).
  by destruct (Prim2SF a) as [s|s| |s m e]; try destruct s.
Qed.

(** ** Zeros *)

Lemma is_zero_SF a :
  is_zero a = match Prim2SF a with S754_zero _ => true | _ => false end.
Proof.
  unfold is_zero. rewrite FloatAxioms.eqb_spec.
  change (Prim2SF zero) with (S754_zero false).
  by destruct (Prim2SF a) as [s|s| |s m e]; try destruct s.
Qed.

Lemma is_zero_cases a : is_zero a = true -> a = 0 \/ a = -0.
Proof.
  rewrite is_zero_SF. intros H.
  destruct (Prim2SF a) as [[]| | |] eqn:E; try done; [right|left];
    by apply Prim2SF_inj.
Qed.

Lemma is_zero_mul_r a z :
  is_finite a = true -> is_zero z = true -> is_zero (a * z) = true.
Proof.
  rewrite is_finite_SF, !is_zero_SF, mul_spec.
  by destruct (Prim2SF a), (Prim2SF z).
Qed.

Lemma is_zero_mul_l a z :
  is_zero z = true -> is_finite a = true -> is_zero (z * a) = true.
Proof.
  rewrite is_finite_SF, !is_zero_SF, mul_spec.
  by destruct (Prim2SF a), (Prim2SF z).
Qed.

(** [- a], or [0] if that is negative, is a zero when [0 <= a]. *)
Lemma is_zero_cut_opp a :
  (0 <=? a) = true -> is_zero (if - a <? 0 then 0 else - a) = true.
Proof.
  intros H. destruct (- a <? 0) eqn:E; [done|]. revert H E.
  rewrite leb_0_SF, ltb_0_SF, is_zero_SF, opp_spec.
  by destruct (Prim2SF a) as [s|s| |s m e]; try destruct s.
Qed.

Lemma leb_0_not_ltb_0_zero a :
  (a <=? 0) = true -> (a <? 0) = false -> is_zero a = true.
Proof.
  rewrite FloatAxioms.leb_spec, ltb_0_SF, is_zero_SF.
  change (Prim2SF 0) with (S754_zero false).
  by destruct (Prim2SF a) as [s|s| |s m e]; try destruct s.
Qed.

(** ** Identities that hold to the last bit *)

Lemma binary_round_aux_opp s m e l :
  binary_round_aux prec emax (negb s) m e l =
  SFopp (binary_round_aux prec emax s m e l).
Proof.
  unfold binary_round_aux.
  destruct (shr_fexp _ _ m e l) as [mrs' e'].
  destruct (shr_fexp _ _ _ e' loc_Exact) as [mrs'' e''].
  destruct (shr_m mrs''); [done| |done].
  by destruct (_ <=? _)%Z.
Qed.

Lemma SFmul_opp_r x y : SF64mul x (SFopp y) = SFopp (SF64mul x y).
Proof.
  destruct x as [sx|sx| |sx mx ex], y as [sy|sy| |sy my ey]; simpl; try done;
    try (by destruct sx, sy).
  rewrite <- binary_round_aux_opp. by destruct sx, sy.
Qed.

Lemma SFadd_opp_l x y : SF64add (SFopp x) y = SF64sub y x.
Proof.
  destruct x as [sx|sx| |sx mx ex], y as [sy|sy| |sy my ey]; simpl; try done;
    try (by destruct sx, sy); try (by destruct sx); try (by destruct sy).
  rewrite (Z.min_comm ex ey). f_equal. destruct sx, sy; simpl; lia.
Qed.

Lemma mul_opp_r a b : a * (- b) = - (a * b).
Proof.
  apply Prim2SF_inj. by rewrite opp_spec, !mul_spec, opp_spec, SFmul_opp_r.
Qed.

Lemma add_opp_l a b : (- a) + b = b - a.
Proof.
  apply Prim2SF_inj. by rewrite add_spec, sub_spec, opp_spec, SFadd_opp_l.
Qed.

Lemma mul_opp_add a f c : a * (- f) + c = c - a * f.
Proof. by rewrite mul_opp_r, add_opp_l. Qed.

(** Multiplication by [1] is exact: the product of the mantissas is the
    mantissa shifted by 52 places, which rounding shifts back. *)
Lemma digits2_pos_shift m :
  Z.pos (digits2_pos (4503599627370496 * m)) = (Z.pos (digits2_pos m) + 52)%Z.
Proof.
  change (4503599627370496 * m)%positive with (Pos.iter xO m 52%positive).
  cbn [Pos.iter]. cbn [digits2_pos]. lia.
Qed.

Lemma SFmul_1_l s m e :
  valid_binary (S754_finite s m e) = true ->
  SF64mul (S754_finite false 4503599627370496 (-52)) (S754_finite s m e) =
  S754_finite s m e.
Proof.
  unfold valid_binary, SpecFloat.valid_binary, bounded, canonical_mantissa.
  intros [Hcan%Z.eqb_eq Hb]%andb_prop.
  unfold SF64mul, SFmul. unfold binary_round_aux.
  unfold shr_fexp at 1. unfold Zdigits2. to_binint. rewrite digits2_pos_shift.
  replace (Z.pos (digits2_pos m) + 52 + (-52 + e))%Z
    with (Z.pos (digits2_pos m) + e)%Z by lia.
  rewrite Hcan. replace (e - (-52 + e))%Z with 52%Z by lia.
  change (4503599627370496 * m)%positive with (Pos.iter xO m 52%positive).
  cbn [Pos.iter shr shr_record_of_loc SpecFloat.iter_pos shr_1 orb].
  cbn [shr_m loc_of_shr_record round_nearest_even].
  replace (-52 + e + 52)%Z with e by lia.
  unfold shr_fexp. cbn [Zdigits2]. to_binint. rewrite Hcan, Z.sub_diag.
  cbn [shr shr_record_of_loc shr_m].
  by rewrite Hb.
Qed.

Lemma mul_1_l a : 1 * a = a.
Proof.
  apply Prim2SF_inj. rewrite mul_spec.
  change (Prim2SF 1) with (S754_finite false 4503599627370496 (-52)).
  pose proof (Prim2SF_valid a) as Hv.
  destruct (Prim2SF a) as [s|s| |s m e]; [done..|by apply SFmul_1_l].
Qed.

Lemma zero_sub_zero_mul f : is_finite f = true -> 0 - (0 - 0 * f) = 0.
Proof.
  rewrite is_finite_SF. intros Hf. apply Prim2SF_inj.
  rewrite !sub_spec, mul_spec. change (Prim2SF 0) with (S754_zero false).
  by destruct (Prim2SF f) as [s|s| |s m e]; try destruct s.
Qed.

Lemma zero_sub_zero_sub f :
  (0 <? f) = true -> is_finite f = true -> 0 - (0 - f) = f.
Proof.
  rewrite is_finite_SF, FloatAxioms.ltb_spec. intros Hpos Hf. apply Prim2SF_inj.
  rewrite !sub_spec. revert Hpos.
  change (Prim2SF 0) with (S754_zero false).
  by destruct (Prim2SF f) as [s|s| |s m e]; try destruct s.
Qed.

End B64.

(** * Ray-sphere intersection *)

Import B64.

(** The three ways out of [sphere_ray_intersect]. *)
Lemma sphere_ray_intersect_paths ray sphere :
  sphere_ray_intersect ray sphere =
  if sri_projection ray sphere <? 0 then (INFINITY, None)
  else if sri_d ray sphere >? radius sphere then (INFINITY, None)
  else (sri_t ray sphere, Some (sri_hit ray sphere)).
Proof. reflexivity. Qed.

Lemma sri_m_nonneg ray sphere :
  is_nan (sri_m ray sphere) = true \/ (0 <=? sri_m ray sphere) = true.
Proof. apply sqrt_nonneg. Qed.

Lemma is_nan_sri_m ray sphere :
  is_nan (sri_d ray sphere) = true -> is_nan (sri_m ray sphere) = true.
Proof.
  intros Hd. unfold sri_m. by apply is_nan_sqrt, is_nan_sub_r, is_nan_mul_l.
Qed.

Lemma is_nan_sri_t_m ray sphere :
  is_nan (sri_m ray sphere) = true -> is_nan (sri_t ray sphere) = true.
Proof.
  intros Hm. unfold sri_t.
  destruct (sri_t0 ray sphere <? 0); [by apply is_nan_add_r|by apply is_nan_sub_r].
Qed.

Lemma is_nan_sri_t_projection ray sphere :
  is_nan (sri_projection ray sphere) = true -> is_nan (sri_t ray sphere) = true.
Proof.
  intros Hm. unfold sri_t.
  destruct (sri_t0 ray sphere <? 0); [by apply is_nan_add_l|by apply is_nan_sub_l].
Qed.

(** Past the test [projection < 0], the chosen root is [nan] or not
    negative. *)
Lemma sri_t_nonneg ray sphere :
  (sri_projection ray sphere <? 0) = false ->
  is_nan (sri_t ray sphere) = true \/ (0 <=? sri_t ray sphere) = true.
Proof.
  intros Hp.
  destruct (is_nan (sri_m ray sphere)) eqn:Hm; [left; by apply is_nan_sri_t_m|].
  destruct (is_nan (sri_projection ray sphere)) eqn:Hpn;
    [left; by apply is_nan_sri_t_projection|].
  unfold sri_t. destruct (sri_t0 ray sphere <? 0) eqn:Ht0.
  - apply add_nonneg; [by apply not_ltb_0_leb_0|].
    destruct (sri_m_nonneg ray sphere); [congruence|done].
  - destruct (is_nan (sri_t0 ray sphere)) eqn:Hn; [by left|right].
    by apply not_ltb_0_leb_0.
Qed.

(** Past the test [projection < 0], the chosen root is [nan] exactly when
    the projection or [m] is, or when both are infinite. *)
Lemma is_nan_sri_t ray sphere :
  (sri_projection ray sphere <? 0) = false ->
  is_nan (sri_t ray sphere) =
  is_nan (sri_projection ray sphere) || is_nan (sri_m ray sphere)
  || (is_infinity (sri_projection ray sphere) && is_infinity (sri_m ray sphere)).
Proof.
  intros Hp%not_ltb_0_nonneg.
  assert (Hm : SF_nonneg (Prim2SF (sri_m ray sphere)))
    by (unfold sri_m; rewrite sqrt_spec; apply SFsqrt_nonneg).
  unfold sri_t. destruct (sri_t0 ray sphere <? 0) eqn:Ht0.
  - apply ltb_not_nan in Ht0 as [Hn _]. unfold sri_t0 in Hn.
    rewrite (is_nan_sub_nonneg _ _ Hp Hm) in Hn. rewrite Hn.
    apply orb_false_elim in Hn as [Hn _].
    unfold sri_t1. by rewrite (is_nan_add_nonneg _ _ Hp Hm).
  - apply (is_nan_sub_nonneg _ _ Hp Hm).
Qed.

(** A finite chosen root comes from a projection and an [m] that are
    numbers, and not negative. *)
Lemma sri_t_finite ray sphere :
  is_finite (sri_t ray sphere) = true ->
  (sri_projection ray sphere <? 0) = false ->
  (0 <=? sri_projection ray sphere) = true /\ (0 <=? sri_m ray sphere) = true
  /\ (0 <=? sri_t ray sphere) = true.
Proof.
  intros Hfin Hp. pose proof (is_finite_not_nan _ Hfin) as Hn.
  assert (Hm : is_nan (sri_m ray sphere) = false).
  { destruct (is_nan (sri_m ray sphere)) eqn:E; [|done].
    apply is_nan_sri_t_m in E. congruence. }
  assert (Hpn : is_nan (sri_projection ray sphere) = false).
  { destruct (is_nan (sri_projection ray sphere)) eqn:E; [|done].
    apply is_nan_sri_t_projection in E. congruence. }
  split_and!.
  - by apply not_ltb_0_leb_0.
  - destruct (sri_m_nonneg ray sphere); [congruence|done].
  - destruct (sri_t_nonneg _ _ Hp); [congruence|done].
Qed.

(** The distance returned is never negative: it is [nan], or [0 <=] it. *)
Lemma hit_distance_nonneg ray sphere :
  is_nan (hit_distance ray sphere) = true \/ (0 <=? hit_distance ray sphere) = true.
Proof.
  unfold hit_distance. rewrite sphere_ray_intersect_paths.
  destruct (sri_projection ray sphere <? 0) eqn:Hp; [by right|].
  destruct (sri_d ray sphere >? radius sphere); [by right|].
  by apply sri_t_nonneg.
Qed.

(** The choice between the two roots the code computes, for every ray and
    sphere: with [t0 = projection - m] and [t1 = projection + m], where [m]
    is not negative, a finite distance returned is [t0] if [t0 >= 0] and
    [t1] otherwise. *)
Lemma sphere_ray_intersect_root ray sphere :
  is_finite (hit_distance ray sphere) = true ->
  (0 <=? sri_m ray sphere) = true /\
  hit_distance ray sphere =
    if 0 <=? sri_t0 ray sphere then sri_t0 ray sphere else sri_t1 ray sphere.
Proof.
  unfold hit_distance. rewrite sphere_ray_intersect_paths.
  destruct (sri_projection ray sphere <? 0) eqn:Hp; [done|].
  destruct (sri_d ray sphere >? radius sphere); [done|].
  simpl. intros Hfin.
  destruct (sri_t_finite _ _ Hfin Hp) as (_ & Hm & _). split; [done|].
  revert Hfin. unfold sri_t. destruct (sri_t0 ray sphere <? 0) eqn:Ht0.
  - by rewrite (ltb_0_leb_0 _ Ht0).
  - intros Hfin. by rewrite (not_ltb_0_leb_0 _ Ht0 (is_finite_not_nan _ Hfin)).
Qed.

(** What [sphere_ray_intersect] does on each of its paths, for every ray
    and sphere: [projection < 0] or [d > radius] gives the sentinel with
    the out-parameter untouched, and the out-parameter is left untouched
    in these two cases only; every other case gives the chosen root with
    the hit record, a root that is [nan] exactly when the projection or
    [m] is [nan] or both are infinite. *)
Lemma sphere_ray_intersect_sentinel ray sphere :
  ((sri_projection ray sphere <? 0) = true \/
   (sri_d ray sphere >? radius sphere) = true ->
   sphere_ray_intersect ray sphere = (INFINITY, None))
  /\ ((sphere_ray_intersect ray sphere).2 = None <->
      (sri_projection ray sphere <? 0) = true \/
      (sri_d ray sphere >? radius sphere) = true)
  /\ ((sri_projection ray sphere <? 0) = false ->
      (sri_d ray sphere >? radius sphere) = false ->
      sphere_ray_intersect ray sphere = (sri_t ray sphere, Some (sri_hit ray sphere))
      /\ (is_nan (sri_t ray sphere) = true \/ (0 <=? sri_t ray sphere) = true)
      /\ is_nan (sri_t ray sphere) =
         is_nan (sri_projection ray sphere) || is_nan (sri_m ray sphere)
         || (is_infinity (sri_projection ray sphere)
             && is_infinity (sri_m ray sphere))
      /\ (is_nan (sri_d ray sphere) = true -> is_nan (sri_m ray sphere) = true)).
Proof.
  rewrite sphere_ray_intersect_paths. split_and!.
  - intros [-> | Hd]; [done|]. rewrite Hd. by destruct (_ <? 0).
  - destruct (_ <? 0); [by split; [left|]|].
    destruct (_ >? _); [by split; [right|]|].
    split; [done|]. by intros [|].
  - intros Hp Hd. rewrite Hp, Hd.
    split_and!; [done|by apply sri_t_nonneg|by apply is_nan_sri_t|].
    apply is_nan_sri_m.
Qed.

(** ** The rounding of [hyp_len * hyp_len - projection * projection] *)

Section ExactFacts.

Import Reals Lra.

Lemma real_of_0 : real_of 0 = 0%R.
Proof. reflexivity. Qed.

Lemma real_of_1 : real_of 1 = 1%R.
Proof.
  change (real_of 1) with (IZR 4503599627370496 * powerRZ 2 (-52))%R.
  unfold powerRZ. simpl. lra.
Qed.

Lemma real_of_2p27 : real_of 134217728 = 134217728%R.
Proof.
  change (real_of 134217728) with (IZR 4503599627370496 * powerRZ 2 (-25))%R.
  unfold powerRZ. simpl. lra.
Qed.

Lemma real_of_half : real_of 0.5 = (/ 2)%R.
Proof.
  change (real_of 0.5) with (IZR 4503599627370496 * powerRZ 2 (-53))%R.
  unfold powerRZ. simpl. lra.
Qed.

(** The three components of the direction of [aimed_ray] are one and the
    same positive number. *)
Lemma real_of_aimed :
  (0 < real_of (vx (direction aimed_ray)))%R
  /\ vy (direction aimed_ray) = vx (direction aimed_ray)
  /\ vz (direction aimed_ray) = vx (direction aimed_ray).
Proof.
  split_and!; [|reflexivity..].
  assert (E : Prim2SF (vx (direction aimed_ray))
              = S754_finite false 5200308914369309 (-53)) by (by vm_compute).
  unfold real_of. rewrite E. unfold SF2R, powerRZ. simpl. lra.
Qed.

(** No point of the line of [axis_ray] lies on [offset_sphere]: the line
    stays at distance 1 from the centre, and the radius is 0.5. *)
Lemma axis_ray_misses_offset_sphere t : ~ on_sphere axis_ray offset_sphere t.
Proof.
  unfold on_sphere, axis_ray, offset_sphere.
  cbn [source direction center radius vx vy vz].
  rewrite real_of_0, real_of_1, real_of_2p27, real_of_half.
  intros H. pose proof (Rle_0_sqr (t - 134217728)) as Hs. unfold Rsqr in Hs.
  nra.
Qed.

(** C1: on the ray from the origin along (0, 1, 0), a unit direction, and
    the sphere of radius 0.5 around (0, 2^27, 1), [sphere_ray_intersect]
    returns the finite distance 134217727.5, the smaller of its two
    computed roots: the squares of [hyp_len] and of [projection] both
    round to 2^54, so that [d] is 0 where the centre is at distance 1 from
    the ray.  In exact arithmetic no point of the ray lies on the sphere:
    the distance returned is no root of the ray-sphere equation, which has
    none, and the claim fails there. *)
Theorem sphere_ray_intersect_hit_without_root :
  vec3_length (direction axis_ray) = 1
  /\ (0 <? radius offset_sphere) = true
  /\ sri_projection axis_ray offset_sphere = 134217728
  /\ sri_d axis_ray offset_sphere = 0
  /\ sri_t0 axis_ray offset_sphere = 134217727.5
  /\ sri_t1 axis_ray offset_sphere = 134217728.5
  /\ hit_distance axis_ray offset_sphere = 134217727.5
  /\ is_finite (hit_distance axis_ray offset_sphere) = true
  /\ (forall t : R, ~ on_sphere axis_ray offset_sphere t)
  /\ ~ root_claim axis_ray offset_sphere.
Proof.
  split_and!; [reflexivity..|apply axis_ray_misses_offset_sphere|].
  intros H. destruct (H eq_refl) as (_ & Hon & _).
  by apply axis_ray_misses_offset_sphere in Hon.
Qed.

(** The line of [aimed_ray] goes through the centre of [unit_sphere_111]
    and meets the sphere ahead of the source, at the distance
    [(1 - 1 / sqrt 3) / a] where [a] is the component of the direction. *)
Lemma aimed_ray_meets_unit_sphere :
  exists t : R, (0 <= t)%R /\ on_sphere aimed_ray unit_sphere_111 t.
Proof.
  destruct real_of_aimed as (Ha & Hy & Hz).
  set (a := real_of (vx (direction aimed_ray))) in *.
  assert (Hs : (sqrt 3 * sqrt 3 = 3)%R) by (apply sqrt_sqrt; lra).
  assert (Hs1 : (1 <= sqrt 3)%R).
  { rewrite <- sqrt_1 at 1. apply sqrt_le_1; lra. }
  exists ((1 - / sqrt 3) / a)%R. split.
  - apply Rmult_le_pos; [|left; by apply Rinv_0_lt_compat].
    assert (/ sqrt 3 <= 1)%R; [|lra].
    rewrite <- Rinv_1. apply Rinv_le_contravar; lra.
  - unfold on_sphere.
    cbn [source center radius aimed_ray unit_sphere_111 vx vy vz].
    fold a. rewrite real_of_0, real_of_1.
    replace (real_of (vy (direction aimed_ray))) with a by (by rewrite Hy).
    replace (real_of (vz (direction aimed_ray))) with a by (by rewrite Hz).
    replace ((1 - / sqrt 3) / a * a)%R with (1 - / sqrt 3)%R by (field; lra).
    assert (Hu : (/ sqrt 3 * sqrt 3 = 1)%R) by (apply Rinv_l; lra).
    set (u := (/ sqrt 3)%R) in *. nra.
Qed.

(** C2: on the ray from the origin aimed at the centre of the unit sphere
    around (1, 1, 1), with its direction normalized (its computed length is
    1), [sphere_ray_intersect] takes neither early exit and returns [nan],
    which is neither the sentinel nor a finite distance: [projection]
    exceeds [hyp_len] in the last place, and [d] is the square root of a
    negative number.  In exact arithmetic the ray meets the sphere ahead of
    its source: the claim, which promises a finite distance, is right of
    the geometry and fails of the code there. *)
Theorem sphere_ray_intersect_nan_on_hit :
  vec3_length (direction aimed_ray) = 1
  /\ (0 <? radius unit_sphere_111) = true
  /\ sri_projection aimed_ray unit_sphere_111 = 1.7320508075688776
  /\ vec3_length (vec3_sub (center unit_sphere_111) (source aimed_ray))
     = 1.7320508075688772
  /\ (sri_projection aimed_ray unit_sphere_111 <? 0) = false
  /\ is_nan (sri_d aimed_ray unit_sphere_111) = true
  /\ (sri_d aimed_ray unit_sphere_111 >? radius unit_sphere_111) = false
  /\ hit_distance aimed_ray unit_sphere_111 = nan
  /\ is_finite (hit_distance aimed_ray unit_sphere_111) = false
  /\ hit_distance aimed_ray unit_sphere_111 <> INFINITY
  /\ (exists t : R, (0 <= t)%R /\ on_sphere aimed_ray unit_sphere_111 t)
  /\ ~ sentinel_claim aimed_ray unit_sphere_111.
Proof.
  split_and!; [reflexivity..| | |].
  - by vm_compute.
  - apply aimed_ray_meets_unit_sphere.
  - intros [_ H]. vm_compute in H. by specialize (H ltac:(done)).
Qed.

End ExactFacts.

(** C10: a finite distance returned by [sphere_ray_intersect] is not
    negative.  Past the early exit the projection is not negative either,
    so that the fallback root [t1] is not negative when [t0 < 0]. *)
Theorem sphere_ray_intersect_nonneg ray sphere :
  is_finite (hit_distance ray sphere) = true ->
  (0 <=? hit_distance ray sphere) = true
  /\ (0 <=? sri_projection ray sphere) = true
  /\ ((sri_t0 ray sphere <? 0) = true -> (0 <=? sri_t1 ray sphere) = true).
Proof.
  unfold hit_distance. rewrite sphere_ray_intersect_paths.
  destruct (sri_projection ray sphere <? 0) eqn:Hp; [done|].
  destruct (sri_d ray sphere >? radius sphere); [done|].
  simpl. intros Hfin.
  destruct (sri_t_finite _ _ Hfin Hp) as (Hp0 & Hm & Ht). split_and!; [done..|].
  intros Ht0. unfold sri_t in Ht. by rewrite Ht0 in Ht.
Qed.

(** From inside the sphere of [main], two units before its centre, the
    nearer root is [-2] and the distance returned is the farther one, 6. *)
Lemma sphere_ray_intersect_nonneg_witness :
  is_finite (hit_distance inner_ray main_sphere) = true
  /\ (sri_t0 inner_ray main_sphere <? 0) = true
  /\ (0 <=? hit_distance inner_ray main_sphere) = true.
Proof.
  assert (H : is_finite (hit_distance inner_ray main_sphere) = true)
    by (vm_compute; reflexivity).
  split_and!; [exact H|by vm_compute|].
  exact (proj1 (sphere_ray_intersect_nonneg inner_ray main_sphere H)).
Defined.

(** * The nearest-hit search of the render driver *)

(** C3 fails as soon as a sphere reports [nan], which [>=] never orders:
    the ray aimed at the unit sphere around (1, 1, 1) first meets
    [far_sphere] at a finite distance, and the [nan] of the second sphere
    replaces it, though it is not smaller.  On the axis of [main]'s camera
    the same happens behind [main_sphere] with a sphere so distant that the
    square of its distance overflows: [inf - inf] is [nan]. *)
Lemma nearest_claim_fails :
  hit_distance aimed_ray far_sphere = 5.6798116411145774
  /\ hit_distance aimed_ray unit_sphere_111 = nan
  /\ (nearest_intersection aimed_ray [far_sphere; unit_sphere_111]).1 = nan
  /\ ~ nearest_claim aimed_ray [far_sphere; unit_sphere_111]
  /\ ~ replaces_only_if_smaller aimed_ray
         (nearest_intersection aimed_ray [far_sphere]) unit_sphere_111
  /\ hit_distance axis_ray main_sphere = 6
  /\ hit_distance axis_ray distant_sphere = nan
  /\ ~ nearest_claim axis_ray [main_sphere; distant_sphere].
Proof.
  split_and!; try (by vm_compute).
  - intros H. destruct (H far_sphere) as [Hfin _]; [by constructor|by vm_compute|].
    by vm_compute in Hfin.
  - intros H. unfold replaces_only_if_smaller in H. vm_compute in H.
    by specialize (H ltac:(done)).
  - intros H. destruct (H main_sphere) as [Hfin _]; [by constructor|by vm_compute|].
    by vm_compute in Hfin.
Qed.

(** One step of the search, on the distance alone. *)
Lemma nearest_step_eq ray best sphere :
  nearest_step ray best sphere =
  if hit_distance ray sphere >=? best.1 then best else sphere_ray_intersect ray sphere.
Proof.
  unfold nearest_step, hit_distance.
  by destruct (sphere_ray_intersect ray sphere) as [d i].
Qed.

Lemma nearest_inv_nil ray : nearest_inv ray [] (INFINITY, None).
Proof. split_and!; [done|by intros s Hs%elem_of_nil|by left]. Qed.

Lemma nearest_inv_snoc ray l best s :
  is_nan (hit_distance ray s) = false ->
  nearest_inv ray l best -> nearest_inv ray (l ++ [s]) (nearest_step ray best s).
Proof.
  intros Hs (Hn & Hle & Hsel). rewrite nearest_step_eq. unfold geb.
  destruct (best.1 <=? hit_distance ray s) eqn:Hcmp.
  - split_and!; [done| |].
    + intros s' [Hs'|Hs'%list_elem_of_singleton]%elem_of_app;
        [by apply Hle|by subst s'].
    + destruct Hsel as [->|(k & s' & Hk & Heq & Hfin & Hbefore)]; [by left|right].
      exists k, s'. split_and!; [|done..|].
      * by apply lookup_app_l_Some.
      * intros j s'' Hj Hj'. apply (Hbefore j); [done|].
        apply lookup_lt_Some in Hk.
        rewrite lookup_app_l in Hj' by lia. done.
  - apply leb_false_ltb in Hcmp; [|done..].
    fold (hit_distance ray s).
    assert (Hall : forall s', s' ∈ l -> (hit_distance ray s <? hit_distance ray s') = true).
    { intros s' Hs'. eapply ltb_leb_trans; [done|by apply Hle]. }
    split_and!; [done| |right].
    + intros s' [Hs'|Hs'%list_elem_of_singleton]%elem_of_app;
        [by apply ltb_leb, Hall|subst s'; by apply leb_refl].
    + exists (length l), s. split_and!.
      * by apply list_lookup_middle.
      * unfold hit_distance. by destruct (sphere_ray_intersect ray s).
      * apply ltb_infinity_finite.
        -- eapply ltb_leb_trans; [done|by apply leb_infinity].
        -- destruct (hit_distance_nonneg ray s); [congruence|done].
      * intros j s' Hj Hj'. rewrite lookup_app_l in Hj' by done.
        apply Hall. by eapply list_elem_of_lookup_2.
Qed.

Lemma nearest_intersection_inv ray spheres :
  Forall (fun s => is_nan (hit_distance ray s) = false) spheres ->
  nearest_inv ray spheres (nearest_intersection ray spheres).
Proof.
  unfold nearest_intersection.
  induction spheres as [|s l IH] using rev_ind; intros Hall.
  - apply nearest_inv_nil.
  - apply Forall_app in Hall as [Hl Hs%Forall_inv].
    rewrite foldl_snoc. apply nearest_inv_snoc; [done|by apply IH].
Qed.

(** The intersection record of the search is unassigned only under the
    sentinel distance, which [main] tests before it reads the record. *)
Lemma nearest_intersection_unassigned ray spheres :
  (nearest_intersection ray spheres).2 = None ->
  (nearest_intersection ray spheres).1 = INFINITY.
Proof.
  unfold nearest_intersection.
  induction spheres as [|s l IH] using rev_ind; [done|].
  rewrite foldl_snoc, nearest_step_eq.
  destruct (_ >=? _); [done|].
  rewrite sphere_ray_intersect_paths.
  destruct (_ <? 0); [done|]. by destruct (_ >? _).
Qed.

(** C3, amended: when no sphere reports [nan], the search ends on a lower
    bound of all the distances; it is the initial sentinel when every
    sphere reports [INFINITY], and otherwise the result of the first sphere
    that reaches the smallest distance, which is finite: the spheres before
    it are strictly farther.  A sphere replaces a best distance exactly
    when its own is strictly smaller. *)
Theorem nearest_intersection_selects ray spheres :
  Forall (fun s => is_nan (hit_distance ray s) = false) spheres ->
  let best := nearest_intersection ray spheres in
  (forall s, s ∈ spheres -> (best.1 <=? hit_distance ray s) = true)
  /\ (best = (INFINITY, None) /\
        (forall s, s ∈ spheres -> hit_distance ray s = INFINITY)
      \/ exists k s, spheres !! k = Some s /\ sphere_ray_intersect ray s = best
           /\ is_finite best.1 = true
           /\ forall j s', (j < k)%nat -> spheres !! j = Some s' ->
                (best.1 <? hit_distance ray s') = true)
  /\ (forall best' s, is_nan best'.1 = false -> s ∈ spheres ->
        nearest_step ray best' s =
          if hit_distance ray s <? best'.1 then sphere_ray_intersect ray s else best').
Proof.
  intros Hall best. destruct (nearest_intersection_inv _ _ Hall) as (Hn & Hle & Hsel).
  fold best in Hn, Hle, Hsel. split_and!; [done| |].
  - destruct Hsel as [Heq|?]; [left|by right]. split; [done|].
    intros s Hs. apply infinity_leb. specialize (Hle s Hs). by rewrite Heq in Hle.
  - intros best' s Hb Hs. rewrite nearest_step_eq. unfold geb.
    pose proof (proj1 (Forall_forall _ _) Hall s Hs) as Hsn. simpl in Hsn.
    destruct (best'.1 <=? hit_distance ray s) eqn:Hcmp.
    + destruct (hit_distance ray s <? best'.1) eqn:Hlt; [|done].
      pose proof (ltb_leb_trans _ _ _ Hlt Hcmp) as Hirr. by rewrite ltb_irrefl in Hirr.
    + by rewrite leb_false_ltb.
Qed.

(** Along the axis, [main_sphere] and [tie_sphere] are both met at distance
    6 and a third sphere at 16: the first one is kept. *)
Lemma nearest_intersection_selects_witness :
  Forall (fun s => is_nan (hit_distance axis_ray s) = false)
    [main_sphere; tie_sphere; {| center := mk_vec3 0 20 0; radius := 4 |}]
  /\ nearest_intersection axis_ray
       [main_sphere; tie_sphere; {| center := mk_vec3 0 20 0; radius := 4 |}]
     = sphere_ray_intersect axis_ray main_sphere.
Proof.
  assert (H : Forall (fun s => is_nan (hit_distance axis_ray s) = false)
                [main_sphere; tie_sphere;
                 {| center := mk_vec3 0 20 0; radius := 4 |}])
    by (repeat constructor).
  split; [exact H|].
  destruct (nearest_intersection_selects _ _ H) as (_ & [[_ Hinf]|Hsel] & _).
  - specialize (Hinf main_sphere ltac:(by constructor)). by vm_compute in Hinf.
  - reflexivity.
Defined.

(** * Camera *)

Lemma vec3_add_mul_opp a f c :
  vec3_add (vec3_mul a (- f)) c = vec3_sub c (vec3_mul a f).
Proof. unfold vec3_add, vec3_sub, vec3_mul. simpl. by rewrite !mul_opp_add. Qed.

(** The ray of [camera_cast_ray], in the terms of the specification: the
    vantage point is [center - forward * focal_distance], which the code
    computes as [forward * (- focal_distance) + center]. *)
Lemma camera_cast_ray_eq camera cam_x cam_y :
  let right := vec3_cross (forward camera) (up camera) in
  let origin :=
    vec3_add (cam_center camera)
      (vec3_add (vec3_mul right (cam_x * cam_width camera))
                (vec3_mul (up camera) (cam_y * cam_height camera))) in
  let vantage_point :=
    vec3_sub (cam_center camera)
      (vec3_mul (forward camera) (focal_distance camera)) in
  camera_cast_ray camera cam_x cam_y =
  {| source := origin;
     direction := vec3_normalize (vec3_sub origin vantage_point) |}.
Proof.
  intros right origin vantage_point.
  unfold camera_cast_ray. fold right. fold origin.
  by rewrite vec3_add_mul_opp.
Qed.

(** C4: the ray starts at [center + (right * (cam_x * width) + up * (cam_y *
    height))] with [right = forward x up] (the two offsets are added first,
    as the code does), and its direction is the normalization of [origin -
    vantage_point] with [vantage_point = center - forward * focal_distance].
    For the camera at the origin with forward (0, 1, 0), up (0, 0, 1) and a
    plane of 10 by 10, the ray at (0, 0) starts at (0, 0, 0) with the
    direction (0, 1, 0), for every positive focal distance [f] that
    normalization takes to 1. *)
Theorem camera_cast_ray_formula :
  (forall camera cam_x cam_y,
     let right := vec3_cross (forward camera) (up camera) in
     let origin :=
       vec3_add (cam_center camera)
         (vec3_add (vec3_mul right (cam_x * cam_width camera))
                   (vec3_mul (up camera) (cam_y * cam_height camera))) in
     let vantage_point :=
       vec3_sub (cam_center camera)
         (vec3_mul (forward camera) (focal_distance camera)) in
     camera_cast_ray camera cam_x cam_y =
     {| source := origin;
        direction := vec3_normalize (vec3_sub origin vantage_point) |})
  /\ (forall f,
        (0 <? f) = true -> is_finite f = true ->
        vec3_normalize (mk_vec3 0 f 0) = mk_vec3 0 1 0 ->
        camera_cast_ray (example_camera f) 0 0 =
        {| source := mk_vec3 0 0 0; direction := mk_vec3 0 1 0 |}).
Proof.
  split; [exact camera_cast_ray_eq|].
  intros f Hpos Hfin Hnorm. rewrite camera_cast_ray_eq.
  unfold example_camera, vec3_sub, vec3_add, vec3_mul, vec3_cross.
  cbn [vx vy vz forward up cam_center cam_width cam_height focal_distance].
  change (0 + ((1 * 1 - 0 * 0) * (0 * 10) + 0 * (0 * 10))) with 0.
  change (0 + ((0 * 0 - 0 * 1) * (0 * 10) + 0 * (0 * 10))) with 0.
  change (0 + ((0 * 0 - 1 * 0) * (0 * 10) + 1 * (0 * 10))) with 0.
  rewrite mul_1_l, (zero_sub_zero_mul f Hfin), (zero_sub_zero_sub f Hpos Hfin).
  cbn [vx vy vz]. by rewrite Hnorm.
Qed.

(** The example at the focal distance of [main]. *)
Lemma camera_cast_ray_formula_witness :
  camera_cast_ray (example_camera main_focal_distance) 0 0 =
  {| source := mk_vec3 0 0 0; direction := mk_vec3 0 1 0 |}.
Proof.
  apply (proj2 camera_cast_ray_formula); reflexivity.
Defined.

Lemma focal_distance_from_fov_eq tan w theta :
  focal_distance_from_fov tan w theta = (w / 2) / tan (deg_to_rad theta / 2).
Proof. reflexivity. Qed.

(** C5: [focal_distance_from_fov w theta] is [(w / 2) / tan (theta_rad / 2)]
    where [theta_rad] is [theta] in radians; the divisor [360 / 2] of the
    code is 180, so that 180 degrees are pi.  It holds for every [w] and
    [theta], in particular for [theta] between 0 and 180. *)
Theorem focal_distance_from_fov_formula tan w theta :
  focal_distance_from_fov tan w theta = (w / 2) / tan (deg_to_rad theta / 2)
  /\ double_of_int (360 / 2) = 180
  /\ deg_to_rad 180 = M_PI.
Proof.
  split_and!; [apply focal_distance_from_fov_eq|reflexivity|by vm_compute].
Qed.

(** * Tone mapping *)

(** C6: a channel is clamped to [0, 1] first and scaled by 255 then, for
    every input: anything above 1 (2 for one) gives 255, anything below 0
    gives 0, and 0.5 gives 127, the middle of the range; the colour
    (2, -0.5, 0.5) becomes (255, 0, 127).  The opposite order would take 0.5
    to 1. *)
Theorem translate_light_component_clamps_first :
  (forall a, translate_light_component a = clamp_then_scale a)
  /\ (forall a, (a >? 1) = true -> translate_light_component a = Some 255%Z)
  /\ (forall a, (a <? 0) = true -> translate_light_component a = Some 0%Z)
  /\ translate_light_component 2 = Some 255%Z
  /\ translate_light_component 0.5 = Some 127%Z
  /\ (forall light,
        rgb_color_from_light light =
        res_r ← clamp_then_scale (vx light);
        res_g ← clamp_then_scale (vy light);
        res_b ← clamp_then_scale (vz light);
        Some {| r := res_r; g := res_g; b := res_b |})
  /\ rgb_color_from_light (mk_vec3 2 (-0.5) 0.5)
     = Some {| r := 255; g := 0; b := 127 |}
  /\ scale_then_clamp 0.5 = Some 1%Z.
Proof.
  assert (H : forall a, translate_light_component a = clamp_then_scale a).
  { intros a. unfold translate_light_component, clamp_then_scale, clamp01.
    by destruct (a <? 0). }
  split_and!; try reflexivity; [exact H| | |].
  3: { intros light. unfold rgb_color_from_light. by rewrite !H. }
  - intros a Ha. unfold translate_light_component.
    by rewrite (gt_1_not_lt_0 _ Ha), Ha.
  - intros a Ha. unfold translate_light_component. by rewrite Ha.
Qed.

(** * Shading *)

Lemma vec3_is_zero_mul a k :
  vec3_is_finite a = true -> is_zero k = true ->
  vec3_is_zero (vec3_mul a k) = true.
Proof.
  unfold vec3_is_finite, vec3_is_zero. simpl.
  intros [[Hx Hy]%andb_prop Hz]%andb_prop Hk.
  by rewrite !is_zero_mul_r.
Qed.

Section ShadingFacts.

Variable pow : float -> float -> float.
Variables light_color light_direction : vec3.
Variable light_intensity : float.

(** C7: for a normal [N] and a light direction [L] whose dot product is a
    number, the diffuse contribution is [(light_color * light_intensity)]
    multiplied channel by channel with [surface_color], scaled by
    [max(0, - N.L)] and by the diffuse weight; it is the zero vector
    whenever [N.L >= 0], for every finite light, that of [main] for one. *)
Theorem diffuse_contribution_cosine normal :
  is_nan (vec3_dot normal light_direction) = false ->
  (exists cosine, is_max0 (- vec3_dot normal light_direction) cosine /\
     diffuse_contribution light_color light_direction light_intensity normal =
     vec3_mul
       (vec3_mul_vec (vec3_mul light_color light_intensity) surface_color)
       (cosine * diffuse_kn))
  /\ ((0 <=? vec3_dot normal light_direction) = true ->
      vec3_is_finite
        (vec3_mul_vec (vec3_mul light_color light_intensity) surface_color)
        = true ->
      vec3_is_zero
        (diffuse_contribution light_color light_direction light_intensity normal)
        = true)
  /\ ((0 <=? vec3_dot normal light_direction) = true ->
      vec3_is_zero
        (diffuse_contribution main_light_color light_direction
           main_light_intensity normal) = true).
Proof.
  intros Hn. unfold diffuse_contribution. split_and!.
  - eexists. split; [|done]. apply cut_is_max0. by rewrite is_nan_opp.
  - intros Hneg Hfin. apply vec3_is_zero_mul; [done|].
    apply is_zero_mul_l; [by apply is_zero_cut_opp|done].
  - intros Hneg. apply vec3_is_zero_mul; [done|].
    apply is_zero_mul_l; [by apply is_zero_cut_opp|done].
Qed.

(** C8: with [proj = - R.D], where [R] is the light direction reflected
    about the normal and [D] the direction of the view ray, the specular
    contribution is [light_color] scaled by [proj ^ spec_n * spec_ks] when
    [proj] is not negative and the zero vector when it is, where the
    formula at [max(0, proj) = 0] gives a zero vector too; it is a zero
    vector whenever [proj <= 0].  The colour of the pixel in light space is
    the plain sum [ambient + diffuse + specular], with
    [ambient = surface_color * ambient_intensity]: nothing is clamped
    there.  ([pow] is any function that is zero at both zeros, as C
    requires of it, and the light is finite.) *)
Theorem shade_sum (best_intersection : intersection) (ray : ray) :
  let proj :=
    - vec3_dot (vec3_reflect light_direction (normal best_intersection))
        (direction ray) in
  let specular :=
    specular_contribution pow light_color light_direction
      (normal best_intersection) (direction ray) in
  is_zero (pow 0 spec_n) = true -> is_zero (pow (-0) spec_n) = true ->
  vec3_is_finite light_color = true ->
  ((proj <? 0) = false ->
   specular = vec3_mul light_color (pow proj spec_n * spec_ks))
  /\ ((proj <? 0) = true ->
      specular = mk_vec3 0 0 0 /\
      vec3_is_zero (vec3_mul light_color (pow 0 spec_n * spec_ks)) = true)
  /\ ((proj <=? 0) = true -> vec3_is_zero specular = true)
  /\ ambient_contribution = vec3_mul surface_color ambient_intensity
  /\ shade pow light_color light_direction light_intensity best_intersection ray
     = vec3_add
         (vec3_add ambient_contribution
            (diffuse_contribution light_color light_direction light_intensity
               (normal best_intersection)))
         specular.
Proof.
  intros proj specular Hp0 Hp0' Hfin. subst specular.
  unfold specular_contribution. fold proj. split_and!; [| | |done|done].
  - by intros ->.
  - intros ->. split; [done|].
    apply vec3_is_zero_mul; [done|]. by apply is_zero_mul_l.
  - intros Hle. destruct (proj <? 0) eqn:E; [done|].
    apply vec3_is_zero_mul; [done|]. apply is_zero_mul_l; [|done].
    destruct (is_zero_cases _ (leb_0_not_ltb_0_zero _ Hle E)) as [-> | ->]; done.
Qed.

End ShadingFacts.

(** The surface of [main_sphere] on the axis is lit from the side: the
    cosine is that of the angle between the normal and the light. *)
Lemma diffuse_contribution_cosine_witness :
  is_nan (vec3_dot (normal axis_hit) main_light_direction) = false
  /\ exists cosine,
       is_max0 (- vec3_dot (normal axis_hit) main_light_direction) cosine /\
       diffuse_contribution main_light_color main_light_direction
         main_light_intensity (normal axis_hit) =
       vec3_mul
         (vec3_mul_vec (vec3_mul main_light_color main_light_intensity)
            surface_color)
         (cosine * diffuse_kn).
Proof.
  assert (H : is_nan (vec3_dot (normal axis_hit) main_light_direction) = false)
    by (vm_compute; reflexivity).
  split; [exact H|].
  exact (proj1 (diffuse_contribution_cosine main_light_color
                  main_light_direction main_light_intensity (normal axis_hit) H)).
Defined.

(** A surface that faces the light and is seen along it is lit at full
    strength: the red channel of the sum exceeds 1 in light space, and only
    the conversion to a pixel clamps it. *)
Lemma shade_sum_witness :
  (vx (shade pow_by_squaring main_light_color main_light_direction
         main_light_intensity lit_hit lit_ray) >? 1) = true
  /\ rgb_color_from_light
       (shade pow_by_squaring main_light_color main_light_direction
          main_light_intensity lit_hit lit_ray)
     = Some {| r := 255; g := 86; b := 3 |}
  /\ shade pow_by_squaring main_light_color main_light_direction
       main_light_intensity lit_hit lit_ray
     = vec3_add
         (vec3_add ambient_contribution
            (diffuse_contribution main_light_color main_light_direction
               main_light_intensity (normal lit_hit)))
         (specular_contribution pow_by_squaring main_light_color
            main_light_direction (normal lit_hit) (direction lit_ray)).
Proof.
  split_and!; [by vm_compute..|].
  apply (shade_sum pow_by_squaring main_light_color main_light_direction
           main_light_intensity lit_hit lit_ray); by vm_compute.
Defined.

(** * The render driver *)

Lemma for_range_ind {S : Type} (P : S -> Prop) (body : nat -> S -> option S)
    start count s s' :
  (forall i t t', (start <= i < start + count)%nat ->
     P t -> body i t = Some t' -> P t') ->
  P s -> for_range body start count s = Some s' -> P s'.
Proof.
  revert start s. induction count as [|count IH]; intros start s Hstep Hs; simpl.
  - by intros [= <-].
  - destruct (body start s) as [t|] eqn:Hb; [|done]. simpl.
    apply IH.
    + intros i t1 t2 Hi. apply Hstep. lia.
    + apply (Hstep start s t); [lia|done..].
Qed.

Lemma rgb_image_get_set_ne image x y x' y' color :
  (x < width image)%nat -> (x' < width image)%nat -> (x', y') <> (x, y) ->
  rgb_image_get (rgb_image_set image x' y' color) x y = rgb_image_get image x y.
Proof.
  intros Hx Hx' Hne. unfold rgb_image_get, rgb_image_set. simpl.
  apply list_lookup_insert_ne. intros Heq. apply Hne.
  assert (y' = y) by nia. subst. f_equal. lia.
Qed.

Lemma rgb_image_get_clear image color x y :
  (x < width image)%nat -> (y < height image)%nat ->
  rgb_image_get (rgb_image_clear image color) x y = Some color.
Proof.
  intros Hx Hy. unfold rgb_image_get, rgb_image_clear. simpl.
  apply lookup_replicate_2. nia.
Qed.

Section RenderFacts.

Variable pow : float -> float -> float.
Variables light_color light_direction : vec3.
Variable light_intensity : float.
Variable camera : camera.
Variable spheres : list sphere.

Local Abbreviation do_pixel :=
  (render_pixel pow light_color light_direction light_intensity camera spheres).
Local Abbreviation do_row :=
  (render_row pow light_color light_direction light_intensity camera spheres).
Local Abbreviation do_render :=
  (render pow light_color light_direction light_intensity camera spheres).

(** The iteration of a pixel that misses returns the image it was given. *)
Lemma render_pixel_miss image x y :
  pixel_misses camera spheres image x y = true ->
  do_pixel image x y = Some image.
Proof.
  unfold pixel_misses, render_pixel. fold (pixel_ray camera image x y).
  destruct (nearest_intersection _ _) as [d i]. simpl. by intros ->.
Qed.

(** An iteration writes at most its own pixel. *)
Lemma render_pixel_cases image x y image' :
  do_pixel image x y = Some image' ->
  image' = image \/ exists color, image' = rgb_image_set image x y color.
Proof.
  unfold render_pixel.
  destruct (nearest_intersection _ _) as [d i].
  destruct (isinf d); [intros [= <-]; by left|].
  destruct i as [i|]; [|done]. simpl.
  destruct (rgb_color_from_light _) as [c|]; [|done]. simpl.
  intros [= <-]. right. by exists c.
Qed.

Lemma pixel_misses_same_size a b x y :
  same_size a b ->
  pixel_misses camera spheres a x y = pixel_misses camera spheres b x y.
Proof. intros [Hw Hh]. unfold pixel_misses, pixel_ray. by rewrite Hw, Hh. Qed.

Lemma render_pixel_frame image x' y' image' x y :
  do_pixel image x' y' = Some image' ->
  (x < width image)%nat -> (x' < width image)%nat -> (x', y') <> (x, y) ->
  same_size image' image /\ rgb_image_get image' x y = rgb_image_get image x y.
Proof.
  intros [->|[c ->]]%render_pixel_cases Hx Hx' Hne; [done|].
  split; [done|by apply rgb_image_get_set_ne].
Qed.

(** No iteration changes a pixel that misses. *)
Lemma render_pixel_keeps image x' y' image' x y c :
  (x < width image)%nat -> (x' < width image)%nat ->
  pixel_misses camera spheres image x y = true ->
  keeps (width image) (height image) x y c image ->
  do_pixel image x' y' = Some image' ->
  keeps (width image) (height image) x y c image'.
Proof.
  intros Hx Hx' Hmiss (_ & _ & Hc) Hr.
  destruct (decide ((x', y') = (x, y))) as [[= -> ->]|Hne].
  - rewrite (render_pixel_miss _ _ _ Hmiss) in Hr. by injection Hr as <-.
  - destruct (render_pixel_frame _ _ _ _ x y Hr Hx Hx' Hne) as [[Hw Hh] Hg].
    split_and!; [done..|by rewrite Hg].
Qed.

Lemma render_keeps image image' x y :
  (x < width image)%nat ->
  pixel_misses camera spheres image x y = true ->
  do_render image = Some image' ->
  same_size image' image /\ rgb_image_get image' x y = rgb_image_get image x y.
Proof.
  intros Hx Hmiss Hr.
  set (w := width image). set (h := height image).
  assert (Hstep : forall x' y' t t', (x' < w)%nat ->
            keeps w h x y (rgb_image_get image x y) t ->
            do_pixel t x' y' = Some t' ->
            keeps w h x y (rgb_image_get image x y) t').
  { intros x' y' t t' Hx' Ht Hr'. pose proof Ht as (Hw & Hh & _).
    rewrite <- Hw, <- Hh in Ht |- *.
    eapply render_pixel_keeps; [| | |exact Ht|exact Hr'].
    - by rewrite Hw.
    - by rewrite Hw.
    - rewrite <- Hmiss. by apply pixel_misses_same_size. }
  assert (Hrow : forall y' t t',
            keeps w h x y (rgb_image_get image x y) t ->
            do_row y' t = Some t' ->
            keeps w h x y (rgb_image_get image x y) t').
  { intros y' t t' Ht. unfold render_row.
    pose proof Ht as (Hw & _ & _). rewrite Hw.
    apply for_range_ind; [|done].
    intros i u u' Hi Hu Hr'. apply (Hstep i y' u u'); [lia|done..]. }
  assert (Hk : keeps w h x y (rgb_image_get image x y) image').
  { revert Hr. unfold render. apply for_range_ind; [|done].
    intros i u u' _ Hu Hr'. by apply (Hrow i u u'). }
  by destruct Hk as (Hw & Hh & Hg).
Qed.

(** C9: for a pixel whose ray meets no sphere (the nearest distance is
    infinite), the iteration returns the image as it was, whatever the
    light and [pow] are: nothing is shaded and nothing is written, so that
    every pixel is unchanged.  Through a whole rendering the pixel keeps
    the colour it had, the background colour when the image was cleared to
    it. *)
Theorem render_skips_missed_pixel image x y :
  (x < width image)%nat -> (y < height image)%nat ->
  pixel_misses camera spheres image x y = true ->
  render_pixel pow light_color light_direction light_intensity camera spheres
    image x y = Some image
  /\ (forall image',
        render pow light_color light_direction light_intensity camera spheres
          image = Some image' ->
        rgb_image_get image' x y = rgb_image_get image x y)
  /\ (forall bg_color image',
        render pow light_color light_direction light_intensity camera spheres
          (rgb_image_clear image bg_color) = Some image' ->
        rgb_image_get image' x y = Some bg_color).
Proof.
  intros Hx Hy Hmiss. split_and!.
  - by apply render_pixel_miss.
  - intros image' Hr. by destruct (render_keeps _ _ x y Hx Hmiss Hr).
  - intros bg_color image' Hr.
    assert (Hmiss' : pixel_misses camera spheres
                       (rgb_image_clear image bg_color) x y = true)
      by (by rewrite <- Hmiss; apply pixel_misses_same_size).
    destruct (render_keeps (rgb_image_clear image bg_color) _ x y Hx Hmiss' Hr)
      as [_ ->].
    by apply rgb_image_get_clear.
Qed.

End RenderFacts.

(** The scene of [main] on an image of 16 by 9 pixels: the corner pixel
    misses the sphere and stays black, the pixel in the middle is shaded. *)
Lemma render_skips_missed_pixel_witness :
  pixel_misses main_camera main_spheres small_image 0 0 = true
  /\ exists image',
       render pow_by_squaring main_light_color main_light_direction
         main_light_intensity main_camera main_spheres small_image
       = Some image'
       /\ rgb_image_get image' 0 0 = Some {| r := 0; g := 0; b := 0 |}
       /\ rgb_image_get image' 8 4 = Some {| r := 148; g := 27; b := 3 |}.
Proof.
  assert (H : pixel_misses main_camera main_spheres small_image 0 0 = true)
    by (vm_compute; reflexivity).
  split; [exact H|].
  eexists. split; [vm_compute; reflexivity|]. split; [|by vm_compute].
  refine (proj2 (proj2 (render_skips_missed_pixel pow_by_squaring
    main_light_color main_light_direction main_light_intensity main_camera
    main_spheres (rgb_image_alloc 16 9) 0 0 _ _ H))
    {| r := 0; g := 0; b := 0 |} _ _); [simpl; lia..|by vm_compute].
Defined.

(** [main] renders the scene of the examples, as soon as [tan] returns the
    tangent of 40 degrees. *)
Lemma main_image_eq tan pow :
  tan (deg_to_rad 80 / 2) = tan_40_degrees ->
  main_image tan pow =
  render pow main_light_color main_light_direction main_light_intensity
    main_camera main_spheres
    (rgb_image_clear (rgb_image_alloc 1920 1080) {| r := 0; g := 0; b := 0 |}).
Proof.
  intros Htan.
  assert (Hf : focal_distance_from_fov tan 10 80 = main_focal_distance).
  { rewrite focal_distance_from_fov_eq, Htan. by vm_compute. }
  unfold main_image. cbv zeta. rewrite Hf. reflexivity.
Qed.

(** * Further properties of the code *)

(** ** Shifts and rounding, as divisions *)

Lemma Prim2SF_255 : Prim2SF 255 = S754_finite false 8972014882652160 (-45).
Proof. reflexivity. Qed.

Lemma digits2_pos_size p : digits2_pos p = Pos.size p.
Proof. induction p; simpl; congruence. Qed.

Lemma digits2_pos_gt p : (Z.pos p < 2 ^ Z.pos (digits2_pos p))%Z.
Proof.
  rewrite digits2_pos_size. pose proof (Pos.size_gt p) as H.
  apply Pos2Z.pos_lt_pos in H. by rewrite Pos2Z.inj_pow in H.
Qed.

Lemma digits2_pos_le p k : (0 <= k)%Z -> (Z.pos p < 2 ^ k)%Z -> (Z.pos (digits2_pos p) <= k)%Z.
Proof.
  intros Hk H. rewrite digits2_pos_size.
  destruct (Z_le_gt_dec (Z.pos (Pos.size p)) k) as [|Hgt]; [done|exfalso].
  pose proof (Pos.size_le p) as Hle.
  apply Pos2Z.pos_le_pos in Hle. rewrite Pos2Z.inj_pow in Hle.
  change (Z.pos p~0) with (2 * Z.pos p)%Z in Hle.
  assert (Hk' : (2 ^ (k + 1) <= 2 ^ Z.pos (Pos.size p))%Z)
    by (apply Z.pow_le_mono_r; lia).
  rewrite Z.pow_add_r in Hk' by lia. lia.
Qed.

Lemma shr_1_div2 mrs : (0 <= shr_m mrs)%Z -> shr_m (shr_1 mrs) = (shr_m mrs / 2)%Z.
Proof.
  destruct mrs as [[|[p|p|]|p] r s]; simpl; intros H.
  - done.
  - change (Z.pos p~1) with (1 + 2 * Z.pos p)%Z.
    by rewrite (Z.mul_comm 2), Z.div_add by lia.
  - change (Z.pos p~0) with (2 * Z.pos p)%Z.
    by rewrite (Z.mul_comm 2), Z.div_mul by lia.
  - done.
  - lia.
Qed.

Lemma iter_shr_1_div m0 p k mrs :
  (0 <= m0)%Z -> (0 <= k)%Z -> shr_m mrs = (m0 / 2 ^ k)%Z ->
  shr_m (SpecFloat.iter_pos shr_1 p mrs) = (m0 / 2 ^ (k + Z.pos p))%Z.
Proof.
  intros Hm0. revert k mrs.
  assert (Hstep : forall k mrs, (0 <= k)%Z -> shr_m mrs = (m0 / 2 ^ k)%Z ->
            shr_m (shr_1 mrs) = (m0 / 2 ^ (k + 1))%Z).
  { intros k mrs Hk H. rewrite shr_1_div2, H.
    - rewrite Z.pow_add_r, Z.div_div by lia. done.
    - rewrite H. apply Z.div_pos; lia. }
  induction p as [p IH|p IH|]; intros k mrs Hk H; simpl.
  - replace (k + Z.pos p~1)%Z with (k + 1 + Z.pos p + Z.pos p)%Z by lia.
    apply IH; [lia|]. apply IH; [lia|]. by apply Hstep.
  - replace (k + Z.pos p~0)%Z with (k + Z.pos p + Z.pos p)%Z by lia.
    apply IH; [lia|]. by apply IH.
  - by apply Hstep.
Qed.

Lemma fexp_eq x : fexp prec emax x = Z.max (x - 53) (-1074).
Proof. reflexivity. Qed.

Lemma Zdigits2_le m k : (0 <= m < 2 ^ k)%Z -> (0 <= k)%Z -> (Zdigits2 m <= k)%Z.
Proof.
  intros [H0 H] Hk. destruct m as [|p|p]; simpl; [done| |lia].
  by apply digits2_pos_le.
Qed.

Lemma shr_fexp_spec m e l :
  (0 <= m)%Z ->
  (shr_fexp prec emax m e l).2 = Z.max e (fexp prec emax (Zdigits2 m + e))
  /\ shr_m (shr_fexp prec emax m e l).1
     = (m / 2 ^ ((shr_fexp prec emax m e l).2 - e))%Z.
Proof.
  intros Hm. unfold shr_fexp, shr. to_binint.
  assert (H0 : shr_m (shr_record_of_loc m l) = m) by (by destruct l as [|[]]).
  destruct (fexp prec emax (Zdigits2 m + e) - e)%Z as [|n|n] eqn:En; simpl.
  - split; [lia|]. rewrite Z.sub_diag, Z.pow_0_r, Z.div_1_r. done.
  - split; [lia|]. replace (e + Z.pos n - e)%Z with (0 + Z.pos n)%Z by lia.
    apply iter_shr_1_div; [done..|]. by rewrite Z.pow_0_r, Z.div_1_r.
  - split; [lia|]. rewrite Z.sub_diag, Z.pow_0_r, Z.div_1_r. done.
Qed.

Lemma round_nearest_even_le m l :
  (m <= round_nearest_even m l <= m + 1)%Z.
Proof. destruct l as [|[]]; simpl; try lia. destruct (Z.even m); lia. Qed.

(** Rounding a positive value below [B * 2^-e], far from overflow, gives a
    zero or a finite number below [B + 1]. *)
Lemma binary_round_aux_bound s m e l B :
  (0 <= m)%Z -> (e < 0)%Z -> (0 < B)%Z -> (B + 1 <= 2 ^ 51)%Z ->
  (m <= B * 2 ^ (- e))%Z ->
  match binary_round_aux prec emax s m e l with
  | S754_zero _ => True
  | S754_finite _ mf ef => (ef < 0 /\ Z.pos mf < (B + 1) * 2 ^ (- ef))%Z
  | _ => False
  end.
Proof.
  intros Hm He HB HB' Hle. unfold binary_round_aux.
  destruct (shr_fexp_spec m e l Hm) as [He1 Hm1].
  destruct (shr_fexp prec emax m e l) as [mrs1 e1]. simpl in He1, Hm1.
  assert (Hpow : forall a b, (0 <= a)%Z -> (0 <= b)%Z ->
                   (2 ^ (a + b) = 2 ^ a * 2 ^ b)%Z) by (intros; apply Z.pow_add_r; lia).
  assert (Hpos : forall a, (0 <= a)%Z -> (0 < 2 ^ a)%Z) by (intros; apply Z.pow_pos_nonneg; lia).
  assert (Hdig : (Zdigits2 m <= 51 - e)%Z).
  { apply Zdigits2_le; [|lia]. split; [done|].
    replace (51 - e)%Z with (51 + - e)%Z by lia. rewrite Hpow by lia.
    pose proof (Hpos (- e)%Z ltac:(lia)). nia. }
  assert (He1' : (e <= e1 < 0)%Z) by (rewrite He1, fexp_eq; lia).
  assert (Hm1' : (0 <= shr_m mrs1 <= B * 2 ^ (- e1))%Z).
  { rewrite Hm1. split; [apply Z.div_pos; [done|apply Hpos; lia]|].
    apply Z.div_le_upper_bound; [apply Hpos; lia|].
    replace (- e)%Z with ((e1 - e) + - e1)%Z in Hle by lia.
    rewrite Hpow in Hle by lia. lia. }
  pose proof (round_nearest_even_le (shr_m mrs1) (loc_of_shr_record mrs1)) as Hr.
  set (m2 := round_nearest_even _ _) in *.
  assert (Hm2 : (0 <= m2 < (B + 1) * 2 ^ (- e1))%Z).
  { split; [lia|].
    assert (2 <= 2 ^ (- e1))%Z.
    { replace (- e1)%Z with (1 + (- e1 - 1))%Z by lia. rewrite Hpow by lia.
      pose proof (Hpos (- e1 - 1)%Z ltac:(lia)). lia. }
    lia. }
  destruct (shr_fexp_spec m2 e1 loc_Exact (proj1 Hm2)) as [He2 Hmf].
  destruct (shr_fexp prec emax m2 e1 loc_Exact) as [mrs2 e2]. simpl in He2, Hmf.
  assert (Hdig2 : (Zdigits2 m2 <= 51 - e1)%Z).
  { apply Zdigits2_le; [|lia]. split; [lia|].
    replace (51 - e1)%Z with (51 + - e1)%Z by lia. rewrite Hpow by lia.
    pose proof (Hpos (- e1)%Z ltac:(lia)). nia. }
  assert (He2' : (e1 <= e2 < 0)%Z) by (rewrite He2, fexp_eq; lia).
  assert (Hmf' : (0 <= shr_m mrs2 < (B + 1) * 2 ^ (- e2))%Z).
  { rewrite Hmf. split; [apply Z.div_pos; [lia|apply Hpos; lia]|].
    apply Z.div_lt_upper_bound; [apply Hpos; lia|].
    destruct Hm2 as [_ Hm2]. replace (- e1)%Z with ((e2 - e1) + - e2)%Z in Hm2 by lia.
    rewrite Hpow in Hm2 by lia. lia. }
  destruct (shr_m mrs2) as [|mf|mf]; [done| |lia].
  assert ((e2 <=? emax - prec)%Z = true) as ->.
  { apply Z.leb_le. change (emax - prec)%Z with 971%Z. lia. }
  simpl. lia.
Qed.

Lemma valid_mantissa_bound (a : float) s m e :
  Prim2SF a = S754_finite s m e -> (Z.pos m < 2 ^ 53)%Z.
Proof.
  intros E. pose proof (Prim2SF_valid a) as Hv. rewrite E in Hv.
  unfold valid_binary, bounded, canonical_mantissa in Hv.
  apply andb_prop in Hv as [Hc _]. to_binint.
  apply Z.eqb_eq in Hc. rewrite fexp_eq in Hc.
  pose proof (digits2_pos_gt m) as Hd.
  assert (Z.pos (digits2_pos m) <= 53)%Z by lia.
  eapply Z.lt_le_trans; [exact Hd|]. apply Z.pow_le_mono_r; lia.
Qed.

(** A number of [[0, 1]] times 255, cut to an integer, fits [uint8_t]. *)
Lemma mul_255_defined c :
  is_nan c = false -> (c <? 0) = false -> (c >? 1) = false ->
  exists n, uint8_of_double (c * 255) = Some n /\ (0 <= n <= 255)%Z.
Proof.
  unfold gtb. rewrite is_nan_SF, ltb_0_SF, FloatAxioms.ltb_spec.
  unfold uint8_of_double, double_trunc. rewrite mul_spec, Prim2SF_255.
  change (Prim2SF 1) with (S754_finite false 4503599627370496 (-52)).
  destruct (Prim2SF c) as [s|s| |s m e] eqn:E; try done.
  - intros _ _ _. exists 0%Z. split; [done|lia].
  - by destruct s.
  - destruct s; [done|]. intros _ _ Hle. unfold SFltb, SFcompare in Hle.
    change IntDef.Z.compare with Z.compare in Hle.
    change PosDef.Pos.compare_cont with Pos.compare_cont in Hle.
    change (SF64mul (S754_finite false m e)
              (S754_finite false 8972014882652160 (-45)))
      with (binary_round_aux prec emax false (Z.pos (m * 8972014882652160))
              (e + -45) loc_Exact).
    pose proof (valid_mantissa_bound c _ _ _ E) as Hm.
    assert (Hb : (e <= -52 /\ Z.pos m <= 2 ^ (- e))%Z).
    { destruct (Z.compare_spec (-52) e) as [<-|?|?]; [|done|].
      - split; [lia|]. fold (Pos.compare 4503599627370496 m) in Hle.
        change (2 ^ (- -52))%Z with 4503599627370496%Z.
        destruct (Pos.compare_spec 4503599627370496 m) as [Hm'|Hm'|Hm'];
          [subst m; lia|done|apply Pos2Z.pos_lt_pos in Hm'; lia].
      - split; [lia|]. etrans; [apply Z.lt_le_incl, Hm|].
        apply Z.pow_le_mono_r; lia. }
    destruct Hb as [He Hb].
    pose proof (binary_round_aux_bound false (Z.pos (m * 8972014882652160))
                  (e + -45) loc_Exact 255) as Hr.
    pose proof (binary_round_aux_signed false (Z.pos (m * 8972014882652160))
                  (e + -45) loc_Exact) as Hs.
    to_binint.
    destruct (binary_round_aux _ _ _ _ _ _) as [s'|s'| |s' mf ef].
    + exists 0%Z. split; [done|lia].
    + exfalso. apply Hr; try lia.
      replace (- (e + -45))%Z with (- e + 45)%Z by lia.
      rewrite Z.pow_add_r by lia. change (2 ^ 45)%Z with 35184372088832%Z. lia.
    + exfalso. apply Hr; try lia.
      replace (- (e + -45))%Z with (- e + 45)%Z by lia.
      rewrite Z.pow_add_r by lia. change (2 ^ 45)%Z with 35184372088832%Z. lia.
    + simpl in Hs. subst s'.
      destruct Hr as [Hef Hmf]; try lia.
      { replace (- (e + -45))%Z with (- e + 45)%Z by lia.
        rewrite Z.pow_add_r by lia. change (2 ^ 45)%Z with 35184372088832%Z. lia. }
      destruct ef as [|p|p]; [lia..|]. simpl.
      change (- Z.neg p)%Z with (Z.pos p) in Hmf.
      assert (H0 : (0 <= Z.pos mf / 2 ^ Z.pos p)%Z) by (apply Z.div_pos; lia).
      assert (H1 : (Z.pos mf / 2 ^ Z.pos p < 255 + 1)%Z)
        by (apply Z.div_lt_upper_bound; lia).
      exists (Z.pos mf / 2 ^ Z.pos p)%Z.
      destruct (Z.leb_spec 0 (Z.pos mf / 2 ^ Z.pos p)); [|lia].
      destruct (Z.leb_spec (Z.pos mf / 2 ^ Z.pos p) 255); [|lia].
      split; [done|lia].
Qed.

(** * Tone mapping *)

Lemma uint8_of_double_nan a : is_nan a = true -> uint8_of_double a = None.
Proof.
  rewrite is_nan_SF. unfold uint8_of_double, double_trunc.
  by destruct (Prim2SF a).
Qed.

Lemma uint8_of_double_range a n :
  uint8_of_double a = Some n -> (0 <= n <= 255)%Z.
Proof.
  unfold uint8_of_double. destruct (double_trunc a) as [k|]; [|done].
  destruct (Z.leb_spec 0 k), (Z.leb_spec k 255); simpl; try done.
  intros [= <-]. lia.
Qed.

Lemma translate_light_component_cases a :
  if is_nan a then translate_light_component a = None
  else exists n, translate_light_component a = Some n /\ (0 <= n <= 255)%Z.
Proof.
  unfold translate_light_component.
  destruct (is_nan a) eqn:Hn.
  - destruct (a <? 0) eqn:H0; [apply ltb_not_nan in H0; intuition congruence|].
    destruct (a >? 1) eqn:H1; [apply ltb_not_nan in H1; intuition congruence|].
    by apply uint8_of_double_nan, is_nan_mul_l.
  - destruct (a <? 0) eqn:H0.
    + exists 0%Z. split; [by vm_compute|lia].
    + destruct (a >? 1) eqn:H1.
      * exists 255%Z. split; [by vm_compute|lia].
      * by apply mul_255_defined.
Qed.

(** X1: the conversion of a light component to a colour channel is
    undefined for [nan] and for no other input, infinities included; where
    it is defined the channel lies between 0 and 255. *)
Theorem translate_light_component_defined a :
  (translate_light_component a = None <-> is_nan a = true)
  /\ (forall n, translate_light_component a = Some n -> (0 <= n <= 255)%Z).
Proof.
  pose proof (translate_light_component_cases a) as H.
  destruct (is_nan a); split_and!.
  - done.
  - intros n. by rewrite H.
  - destruct H as (n & -> & _). done.
  - intros n Hn. destruct H as (k & Hk & ?). congruence.
Qed.

Lemma rgb_color_from_light_cases light :
  if vec3_has_nan light then rgb_color_from_light light = None
  else exists color, rgb_color_from_light light = Some color.
Proof.
  unfold vec3_has_nan, rgb_color_from_light.
  pose proof (translate_light_component_cases (vx light)) as Hx.
  pose proof (translate_light_component_cases (vy light)) as Hy.
  pose proof (translate_light_component_cases (vz light)) as Hz.
  destruct (is_nan (vx light)); [by rewrite Hx|].
  destruct Hx as (nx & -> & _).
  destruct (is_nan (vy light)); [by rewrite Hy|].
  destruct Hy as (ny & -> & _).
  destruct (is_nan (vz light)); [by rewrite Hz|].
  destruct Hz as (nz & -> & _). simpl. by eexists.
Qed.

(** X2: a colour in light space has no pixel exactly when one of its
    channels is [nan]; the channels of the pixel are those of
    [translate_light_component], each between 0 and 255. *)
Theorem rgb_color_from_light_defined light :
  (rgb_color_from_light light = None <-> vec3_has_nan light = true)
  /\ (forall color, rgb_color_from_light light = Some color ->
        translate_light_component (vx light) = Some (r color)
        /\ translate_light_component (vy light) = Some (g color)
        /\ translate_light_component (vz light) = Some (b color)
        /\ (0 <= r color <= 255)%Z /\ (0 <= g color <= 255)%Z
        /\ (0 <= b color <= 255)%Z).
Proof.
  split.
  - pose proof (rgb_color_from_light_cases light) as H.
    destruct (vec3_has_nan light); [done|].
    destruct H as (c & ->). done.
  - intros color. unfold rgb_color_from_light.
    pose proof (translate_light_component_cases (vx light)) as Hx.
    pose proof (translate_light_component_cases (vy light)) as Hy.
    pose proof (translate_light_component_cases (vz light)) as Hz.
    destruct (translate_light_component (vx light)) as [nx|]; [|done].
    destruct (translate_light_component (vy light)) as [ny|]; [|done].
    destruct (translate_light_component (vz light)) as [nz|]; [|done].
    simpl. intros [= <-]. simpl.
    destruct (is_nan (vx light)); [done|]. destruct Hx as (? & [= <-] & ?).
    destruct (is_nan (vy light)); [done|]. destruct Hy as (? & [= <-] & ?).
    destruct (is_nan (vz light)); [done|]. destruct Hz as (? & [= <-] & ?).
    done.
Qed.

(** * The pixel loops as a whole *)

(** The counter of a loop, with an invariant that depends on it. *)
Lemma for_range_inv {S : Type} (P : nat -> S -> Prop)
    (body : nat -> S -> option S) start count s s' :
  (forall i t t', (start <= i < start + count)%nat ->
     P i t -> body i t = Some t' -> P (Datatypes.S i) t') ->
  P start s -> for_range body start count s = Some s' ->
  P (start + count)%nat s'.
Proof.
  revert start s. induction count as [|count IH]; intros start s Hstep Hs; simpl.
  - intros [= <-]. by rewrite Nat.add_0_r.
  - destruct (body start s) as [t|] eqn:Hb; [|done]. simpl.
    rewrite <- Nat.add_succ_comm. apply IH.
    + intros i t1 t2 Hi. apply Hstep. lia.
    + apply (Hstep start s t); [lia|done..].
Qed.

(** A loop whose body is defined on the states of an invariant runs to
    its end. *)
Lemma for_range_is_Some {S : Type} (Q : S -> Prop)
    (body : nat -> S -> option S) start count s :
  (forall i t, (start <= i < start + count)%nat -> Q t ->
     exists t', body i t = Some t' /\ Q t') ->
  Q s -> exists s', for_range body start count s = Some s' /\ Q s'.
Proof.
  revert start s. induction count as [|count IH]; intros start s Hstep Hs; simpl.
  - by exists s.
  - destruct (Hstep start s) as (t & -> & Ht); [lia|done|]. simpl.
    apply IH; [|done]. intros i u Hi. apply Hstep. lia.
Qed.

(** A loop that runs to its end ran every iteration, on a state of the
    invariant. *)
Lemma for_range_ran {S : Type} (Q : S -> Prop)
    (body : nat -> S -> option S) start count s s' i :
  (forall i t t', (start <= i < start + count)%nat ->
     Q t -> body i t = Some t' -> Q t') ->
  Q s -> for_range body start count s = Some s' ->
  (start <= i < start + count)%nat ->
  exists t t', Q t /\ body i t = Some t'.
Proof.
  revert start s. induction count as [|count IH]; intros start s Hstep Hs; simpl.
  - lia.
  - destruct (body start s) as [t|] eqn:Hb; [|done]. simpl. intros Hr Hi.
    destruct (decide (i = start)) as [->|Hne]; [by exists s, t|].
    apply (IH (Datatypes.S start) t); [|by eapply Hstep; [|done..]; lia|done|lia].
    intros j u u' Hj. apply Hstep. lia.
Qed.

Lemma rgb_image_get_set_eq image x y color :
  (y * width image + x < length (data image))%nat ->
  rgb_image_get (rgb_image_set image x y color) x y = Some color.
Proof.
  intros H. unfold rgb_image_get, rgb_image_set. simpl.
  by apply list_lookup_insert_eq.
Qed.

(** The outcome of the sphere loop on a ray for which no sphere reports
    [nan]: every sphere reports the sentinel and the loop ends on it, or
    the loop ends on the result of the first sphere that reports the
    smallest distance, which is finite and comes with a hit record. *)
Lemma nearest_intersection_cases ray spheres :
  Forall (fun s => is_nan (hit_distance ray s) = false) spheres ->
  (nearest_intersection ray spheres = (INFINITY, None)
   /\ forall s, s ∈ spheres -> hit_distance ray s = INFINITY)
  \/ exists k s hit,
       spheres !! k = Some s
       /\ sphere_ray_intersect ray s = (hit_distance ray s, Some hit)
       /\ nearest_intersection ray spheres = (hit_distance ray s, Some hit)
       /\ is_finite (hit_distance ray s) = true
       /\ (forall s', s' ∈ spheres ->
             (hit_distance ray s <=? hit_distance ray s') = true)
       /\ (forall j s', (j < k)%nat -> spheres !! j = Some s' ->
             (hit_distance ray s <? hit_distance ray s') = true).
Proof.
  intros Hall. destruct (nearest_intersection_inv _ _ Hall) as (_ & Hle & Hsel).
  destruct Hsel as [Hb|(k & s & Hk & Hs & Hfin & Hbefore)].
  - left. split; [done|]. intros s Hs. apply infinity_leb.
    specialize (Hle s Hs). by rewrite Hb in Hle.
  - right. pose proof (nearest_intersection_unassigned ray spheres) as Hu.
    assert (Hd : hit_distance ray s = (nearest_intersection ray spheres).1)
      by (by rewrite <- Hs).
    destruct (nearest_intersection ray spheres) as [d [hit|]] eqn:Eb;
      simpl in *; subst d.
    + exists k, s, hit. split_and!; [done..|by apply Hle|done].
    + rewrite Hu in Hfin by done. done.
Qed.

Section WholeRender.

Variable pow : float -> float -> float.
Variables light_color light_direction : vec3.
Variable light_intensity : float.
Variable camera : camera.
Variable spheres : list sphere.

Local Abbreviation the_pixel :=
  (render_pixel pow light_color light_direction light_intensity camera spheres).
Local Abbreviation the_row :=
  (render_row pow light_color light_direction light_intensity camera spheres).
Local Abbreviation the_render :=
  (render pow light_color light_direction light_intensity camera spheres).
Local Abbreviation the_color :=
  (pixel_color pow light_color light_direction light_intensity camera spheres).
Local Abbreviation the_shade :=
  (shade pow light_color light_direction light_intensity).

(** One iteration: nothing for a miss, the colour of the hit otherwise. *)
Lemma render_pixel_eq image x y :
  the_pixel image x y =
  if pixel_misses camera spheres image x y then Some image
  else color ← the_color image x y; Some (rgb_image_set image x y color).
Proof.
  unfold render_pixel, pixel_misses, pixel_color.
  fold (pixel_ray camera image x y).
  destruct (nearest_intersection _ _) as [d i]. simpl.
  destruct (isinf d); [done|]. by destruct i.
Qed.

Lemma pixel_color_same_size a b x y :
  same_size a b -> the_color a x y = the_color b x y.
Proof. intros [Hw Hh]. unfold pixel_color, pixel_ray. by rewrite Hw, Hh. Qed.

(** The colour of a pixel that hits is undefined only through a [nan]
    channel: the record of the hit was written. *)
Lemma pixel_color_cases image x y :
  pixel_misses camera spheres image x y = false ->
  exists best_intersection,
    (nearest_intersection (pixel_ray camera image x y) spheres).2
      = Some best_intersection
    /\ the_color image x y
       = rgb_color_from_light
           (the_shade best_intersection (pixel_ray camera image x y)).
Proof.
  unfold pixel_misses, pixel_color. intros Hhit.
  pose proof (nearest_intersection_unassigned (pixel_ray camera image x y) spheres)
    as Hu.
  destruct (nearest_intersection _ _).2 as [i|].
  - by exists i.
  - rewrite Hu in Hhit by done. done.
Qed.

Lemma render_pixel_same_size image x y image' :
  the_pixel image x y = Some image' -> same_size image' image.
Proof. by intros [->|[c ->]]%render_pixel_cases. Qed.

Lemma render_row_same_size image y image' :
  the_row y image = Some image' -> same_size image' image.
Proof.
  unfold render_row. apply (for_range_ind (fun t => same_size t image)); [|done].
  intros i t t' _ [Hw Hh] [Hw' Hh']%render_pixel_same_size.
  split; congruence.
Qed.

Local Abbreviation done_upto :=
  (rendered_upto pow light_color light_direction light_intensity camera spheres).

Lemma rendered_upto_pixel image x y t t' :
  image_wf image -> (x < width image)%nat -> (y < height image)%nat ->
  done_upto image (y * width image + x) t ->
  the_pixel t x y = Some t' ->
  done_upto image (y * width image + Datatypes.S x) t'.
Proof.
  intros Hwf Hx Hy (Hsz & Hlen & Hpix) Hr. pose proof Hsz as [Hw Hh].
  rewrite render_pixel_eq in Hr.
  rewrite (pixel_misses_same_size _ _ _ _ x y Hsz) in Hr.
  rewrite (pixel_color_same_size _ _ x y Hsz) in Hr.
  destruct (pixel_misses camera spheres image x y) eqn:Hm.
  - injection Hr as <-. split_and!; [done..|].
    intros x1 y1 Hx1 Hy1. rewrite (Hpix x1 y1 Hx1 Hy1).
    destruct (decide ((x1, y1) = (x, y))) as [[= -> ->]|Hne].
    + rewrite Hm.
      destruct (Nat.ltb_spec (y * width image + x) (y * width image + x)); [lia|].
      by destruct (Nat.ltb_spec (y * width image + x) (y * width image + Datatypes.S x)).
    + assert (y1 * width image + x1 <> y * width image + x)%nat.
      { intros Heq. apply Hne. assert (y1 = y) by nia. subst. f_equal. lia. }
      destruct (Nat.ltb_spec (y1 * width image + x1) (y * width image + x)),
        (Nat.ltb_spec (y1 * width image + x1) (y * width image + Datatypes.S x));
        try done; lia.
  - destruct (the_color image x y) as [c|] eqn:Hc; [|done].
    injection Hr as <-.
    split_and!; [done|unfold rgb_image_set; simpl; by rewrite length_insert|].
    intros x1 y1 Hx1 Hy1.
    destruct (decide ((x1, y1) = (x, y))) as [[= -> ->]|Hne].
    + rewrite Hm, Hc.
      destruct (Nat.ltb_spec (y * width image + x) (y * width image + Datatypes.S x));
        [|lia].
      apply rgb_image_get_set_eq.
      unfold image_wf in Hwf. rewrite Hlen, Hw, Hwf. nia.
    + rewrite rgb_image_get_set_ne by (rewrite ?Hw; done).
      rewrite (Hpix x1 y1 Hx1 Hy1).
      assert (y1 * width image + x1 <> y * width image + x)%nat.
      { intros Heq. apply Hne. assert (y1 = y) by nia. subst. f_equal. lia. }
      destruct (Nat.ltb_spec (y1 * width image + x1) (y * width image + x)),
        (Nat.ltb_spec (y1 * width image + x1) (y * width image + Datatypes.S x));
        try done; lia.
Qed.

Lemma rendered_upto_row image y t t' :
  image_wf image -> (y < height image)%nat ->
  done_upto image (y * width image) t ->
  the_row y t = Some t' ->
  done_upto image (Datatypes.S y * width image) t'.
Proof.
  intros Hwf Hy Ht Hr. unfold render_row in Hr.
  pose proof Ht as ([Hw _] & _). rewrite Hw in Hr.
  replace (Datatypes.S y * width image)%nat
    with (y * width image + (0 + width image))%nat by lia.
  revert Hr.
  apply (for_range_inv (fun x u => done_upto image (y * width image + x) u)).
  - intros i u u' Hi Hu Hr. apply (rendered_upto_pixel image i y u u'); [done|lia|done..].
  - by rewrite Nat.add_0_r.
Qed.

(** At the end of the loops every pixel holds its final colour. *)
Lemma render_rendered_upto image image' :
  image_wf image -> the_render image = Some image' ->
  done_upto image (height image * width image) image'.
Proof.
  intros Hwf. unfold render.
  change (height image * width image)%nat
    with ((0 + height image) * width image)%nat.
  apply (for_range_inv (fun y u => done_upto image (y * width image) u)).
  - intros i u u' Hi Hu Hr'. apply (rendered_upto_row image i u u'); [done|lia|done..].
  - split_and!; [done..|]. intros x y _ _.
    by destruct (Nat.ltb_spec (y * width image + x) (0 * width image)); [lia|].
Qed.

(** X3: a rendering that stays within defined behaviour keeps the size of
    the image, and settles every pixel for whose ray no sphere test returns
    [nan] in one of two ways.  If every sphere test returns the sentinel
    [INFINITY], the pixel holds what it held.  Otherwise it holds the
    colour, through [rgb_color_from_light], of the shading of the hit
    record that [sphere_ray_intersect] wrote for the nearest sphere: the
    first one in the scene whose distance, which is finite, is not above
    that of any other sphere. *)
Theorem render_pixelwise image image' :
  image_wf image ->
  render pow light_color light_direction light_intensity camera spheres image
    = Some image' ->
  same_size image' image /\ image_wf image'
  /\ forall x y, (x < width image)%nat -> (y < height image)%nat ->
       Forall (fun s =>
                 is_nan (hit_distance (pixel_ray camera image x y) s) = false)
         spheres ->
       ((forall s, s ∈ spheres ->
           hit_distance (pixel_ray camera image x y) s = INFINITY)
        /\ rgb_image_get image' x y = rgb_image_get image x y)
       \/ exists k s hit,
            spheres !! k = Some s
            /\ sphere_ray_intersect (pixel_ray camera image x y) s
               = (hit_distance (pixel_ray camera image x y) s, Some hit)
            /\ is_finite (hit_distance (pixel_ray camera image x y) s) = true
            /\ (forall s', s' ∈ spheres ->
                  (hit_distance (pixel_ray camera image x y) s
                   <=? hit_distance (pixel_ray camera image x y) s') = true)
            /\ (forall j s', (j < k)%nat -> spheres !! j = Some s' ->
                  (hit_distance (pixel_ray camera image x y) s
                   <? hit_distance (pixel_ray camera image x y) s') = true)
            /\ rgb_image_get image' x y
               = rgb_color_from_light
                   (shade pow light_color light_direction light_intensity hit
                      (pixel_ray camera image x y)).
Proof.
  intros Hwf Hr.
  destruct (render_rendered_upto image image' Hwf Hr) as ([Hw Hh] & Hlen & Hpix).
  split_and!; [done..| |].
  - unfold image_wf in *. congruence.
  - intros x y Hx Hy Hall. rewrite (Hpix x y Hx Hy).
    destruct (Nat.ltb_spec (y * width image + x) (height image * width image));
      [|nia].
    unfold pixel_misses, pixel_color.
    destruct (nearest_intersection_cases _ _ Hall)
      as [[Hb Hinf]|(k & s & hit & Hk & Hs & Hb & Hfin & Hle & Hbefore)].
    + left. split; [done|]. by rewrite Hb.
    + right. exists k, s, hit. split_and!; [done..|].
      rewrite Hb. simpl. unfold isinf. by rewrite (is_finite_not_inf _ Hfin).
Qed.

(** The iteration of a pixel is defined exactly when the pixel misses or
    its hit has a colour. *)
Lemma render_pixel_is_Some image x y :
  is_Some (the_pixel image x y) <->
  (pixel_misses camera spheres image x y = false ->
   exists best_intersection,
     (nearest_intersection (pixel_ray camera image x y) spheres).2
       = Some best_intersection
     /\ vec3_has_nan (the_shade best_intersection (pixel_ray camera image x y))
        = false).
Proof.
  rewrite render_pixel_eq.
  destruct (pixel_misses camera spheres image x y) eqn:Hm; [done|].
  destruct (pixel_color_cases image x y Hm) as (bi & Hbi & ->).
  pose proof (rgb_color_from_light_cases
                (the_shade bi (pixel_ray camera image x y))) as Hc.
  split.
  - intros Hs _. exists bi. split; [done|].
    destruct (vec3_has_nan _); [|done]. rewrite Hc in Hs. by destruct Hs.
  - intros H. destruct (H eq_refl) as (bi' & Hbi' & Hn).
    assert (bi' = bi) as -> by congruence. rewrite Hn in Hc.
    destruct Hc as (c & ->). by eexists.
Qed.

(** A rendering that is defined ran the iteration of every pixel, on an
    image of the same size. *)
Lemma render_ran_pixel image image' x y :
  the_render image = Some image' ->
  (x < width image)%nat -> (y < height image)%nat ->
  exists u, same_size u image /\ is_Some (the_pixel u x y).
Proof.
  intros Hr Hx Hy.
  destruct (for_range_ran (fun t => same_size t image) _ _ _ _ _ y
              (fun i t t' _ Ht Hr' =>
                 let '(conj Hw Hh) := Ht in
                 let '(conj Hw' Hh') := render_row_same_size _ _ _ Hr' in
                 conj (eq_trans Hw' Hw) (eq_trans Hh' Hh))
              (conj eq_refl eq_refl) Hr ltac:(lia))
    as (t & t' & Hsz & Hrow).
  pose proof Hsz as [Hw Hh]. unfold render_row in Hrow.
  destruct (for_range_ran (fun u => same_size u image) _ _ _ _ _ x
              (fun i u u' _ Hu Hr' =>
                 let '(conj Hw Hh) := Hu in
                 let '(conj Hw' Hh') := render_pixel_same_size _ _ _ _ Hr' in
                 conj (eq_trans Hw' Hw) (eq_trans Hh' Hh))
              Hsz Hrow ltac:(lia))
    as (u & u' & Hsz' & Hpix).
  exists u. split; [done|by eexists].
Qed.

(** A rendering all of whose hits have a colour is defined. *)
Lemma render_pixels_defined image :
  (forall x y, (x < width image)%nat -> (y < height image)%nat ->
     pixel_misses camera spheres image x y = false ->
     exists best_intersection,
       (nearest_intersection (pixel_ray camera image x y) spheres).2
         = Some best_intersection
       /\ vec3_has_nan
            (the_shade best_intersection (pixel_ray camera image x y)) = false) ->
  is_Some (the_render image).
Proof.
  intros Hall.
  destruct (for_range_is_Some (fun t => same_size t image)
              the_row 0 (height image) image) as (image' & Hr & _);
    [|done|by exists image'].
  intros y t Hy Ht. unfold render_row. pose proof Ht as [Hw Hh].
  destruct (for_range_is_Some (fun u => same_size u image)
              (fun x u => the_pixel u x y) 0 (width t) t) as (t' & Hr & Ht');
    [|done|by exists t'].
  intros x u Hx Hu.
  assert (Hs : is_Some (the_pixel u x y)).
  { apply render_pixel_is_Some.
    rewrite (pixel_misses_same_size _ _ _ _ x y Hu).
    unfold pixel_ray. destruct Hu as [-> ->]. apply Hall; lia. }
  destruct Hs as [u' Hu']. exists u'. split; [done|].
  apply render_pixel_same_size in Hu' as [? ?]. destruct Hu. split; congruence.
Qed.

(** X4: a rendering runs into undefined behaviour in one way only, a
    [nan] in the shading of a pixel that hits: it is defined exactly when
    every pixel of the image misses the spheres or has a hit record whose
    shading has no [nan] channel.  In particular the record of the hit is
    never read before it was written. *)
Theorem render_defined image :
  is_Some (render pow light_color light_direction light_intensity camera
             spheres image)
  <-> forall x y, (x < width image)%nat -> (y < height image)%nat ->
        pixel_misses camera spheres image x y = false ->
        exists best_intersection,
          (nearest_intersection (pixel_ray camera image x y) spheres).2
            = Some best_intersection
          /\ vec3_has_nan
               (shade pow light_color light_direction light_intensity
                  best_intersection (pixel_ray camera image x y)) = false.
Proof.
  split; [|apply render_pixels_defined].
  intros [image' Hr] x y Hx Hy.
  destruct (render_ran_pixel _ _ x y Hr Hx Hy) as (u & Hsz & Hs).
  pose proof (proj1 (render_pixel_is_Some u x y) Hs) as Hs'.
  rewrite (pixel_misses_same_size _ _ _ _ x y Hsz) in Hs'.
  unfold pixel_ray in *. destruct Hsz as [Hw' Hh']. rewrite Hw', Hh' in Hs'.
  done.
Qed.

(** X5: when no pixel of the image hits a sphere, as in a scene without
    spheres, the rendering is defined and returns the image it was given. *)
Theorem render_all_miss image :
  (forall x y, (x < width image)%nat -> (y < height image)%nat ->
     pixel_misses camera spheres image x y = true) ->
  render pow light_color light_direction light_intensity camera spheres image
    = Some image.
Proof.
  intros Hall.
  destruct (for_range_is_Some (fun t => t = image)
              the_row 0 (height image) image) as (image' & Hr & ->); [|done..].
  intros y t Hy ->. exists image. split; [|done]. unfold render_row.
  destruct (for_range_is_Some (fun t => t = image)
              (fun x u => the_pixel u x y) 0 (width image) image)
    as (image' & Hr & ->); [|done..].
  intros x u Hx ->. exists image. split; [|done].
  apply render_pixel_miss, Hall; lia.
Qed.

(** Two images of the same size with the same pixels are the same. *)
Lemma rgb_image_ext a b :
  same_size a b -> length (data a) = length (data b) -> image_wf b ->
  (forall x y, (x < width b)%nat -> (y < height b)%nat ->
     rgb_image_get a x y = rgb_image_get b x y) ->
  a = b.
Proof.
  destruct a as [wa ha da], b as [w h db]. unfold same_size, image_wf, rgb_image_get.
  simpl. intros [-> ->] Hlen Hwf Hpix. f_equal.
  apply list_eq. intros i.
  destruct (decide (i < h * w)%nat) as [Hi|Hi].
  - assert (Hw : (0 < w)%nat) by nia.
    pose proof (Nat.div_mod_eq i w) as Hdm.
    pose proof (Nat.mod_upper_bound i w ltac:(lia)) as Hx.
    assert (Hy : (i / w < h)%nat) by (apply Nat.Div0.div_lt_upper_bound; lia).
    specialize (Hpix (i mod w)%nat (i / w)%nat Hx Hy).
    by replace ((i / w) * w + i mod w)%nat with i in Hpix by lia.
  - rewrite !lookup_ge_None_2 by lia. done.
Qed.

(** X6: rendering is idempotent: the colour of a pixel does not depend on
    what the image holds, so an image that was rendered is rendered to
    itself. *)
Theorem render_idempotent image image' :
  image_wf image ->
  render pow light_color light_direction light_intensity camera spheres image
    = Some image' ->
  render pow light_color light_direction light_intensity camera spheres image'
    = Some image'.
Proof.
  intros Hwf Hr.
  destruct (render_rendered_upto image image' Hwf Hr) as (Hsz & Hlen & Hpix).
  pose proof Hsz as [Hw Hh].
  assert (Hwf' : image_wf image') by (unfold image_wf in *; congruence).
  assert (Hs : is_Some (the_render image')).
  { apply render_pixels_defined. intros x y Hx Hy Hhit.
    rewrite Hw in Hx. rewrite Hh in Hy.
    destruct (render_ran_pixel _ _ x y Hr Hx Hy) as (u & Hu & Hs).
    pose proof (proj1 (render_pixel_is_Some u x y) Hs) as Hs'.
    rewrite (pixel_misses_same_size _ _ _ _ x y Hu),
      <- (pixel_misses_same_size _ _ _ _ x y Hsz) in Hs'.
    unfold pixel_ray in *. destruct Hu as [Hw' Hh'].
    rewrite Hw', Hh', <- Hw, <- Hh in Hs'. by apply Hs'. }
  destruct Hs as [image'' Hr']. rewrite Hr'. f_equal.
  destruct (render_rendered_upto image' image'' Hwf' Hr') as (Hsz' & Hlen' & Hpix').
  apply rgb_image_ext; [done..|].
  intros x y Hx Hy. rewrite (Hpix' x y Hx Hy).
  destruct (Nat.ltb_spec (y * width image' + x) (height image' * width image'));
    [|nia].
  rewrite (pixel_misses_same_size _ _ _ _ x y Hsz),
    (pixel_color_same_size _ _ x y Hsz).
  rewrite Hw in Hx. rewrite Hh in Hy. rewrite (Hpix x y Hx Hy).
  destruct (Nat.ltb_spec (y * width image + x) (height image * width image));
    [|nia].
  by destruct (pixel_misses camera spheres image x y).
Qed.

End WholeRender.

(** * The nearest-hit search and the order of the spheres *)



Lemma leb_nan_r a b : is_nan b = true -> (a <=? b) = false.
Proof.
  intros Hb. destruct (a <=? b) eqn:H; [|done].
  apply leb_not_nan in H. intuition congruence.
Qed.

Lemma leb_nan_l a b : is_nan a = true -> (a <=? b) = false.
Proof.
  intros Ha. destruct (a <=? b) eqn:H; [|done].
  apply leb_not_nan in H. intuition congruence.
Qed.


(** X7: the distance and the hit record the search ends on always come
    from one and the same sphere of the scene, unless they are the initial
    sentinel: this holds with [nan] distances too. *)
Theorem nearest_intersection_consistent ray spheres :
  nearest_intersection ray spheres = (INFINITY, None)
  \/ exists s, s ∈ spheres
       /\ nearest_intersection ray spheres = sphere_ray_intersect ray s.
Proof.
  unfold nearest_intersection.
  induction spheres as [|s l IH] using rev_ind; [by left|].
  rewrite foldl_snoc, nearest_step_eq.
  destruct (hit_distance ray s >=? _).
  - destruct IH as [IH|(s' & Hs' & IH)]; [by left|right].
    exists s'. split; [|done]. apply elem_of_app. by left.
  - right. exists s. split; [|done]. apply elem_of_app. right. by constructor.
Qed.



(** X9: a sphere that reports [nan] becomes the best hit whatever was
    found before it, and the sphere tested after it becomes the best hit
    whatever its distance is: the spheres before the [nan] are forgotten. *)
Theorem nearest_intersection_nan ray l1 s :
  is_nan (hit_distance ray s) = true ->
  nearest_intersection ray (l1 ++ [s]) = sphere_ray_intersect ray s
  /\ forall s' l2,
       nearest_intersection ray (l1 ++ s :: s' :: l2)
       = foldl (nearest_step ray) (sphere_ray_intersect ray s') l2.
Proof.
  intros Hn.
  assert (Hs : forall best, nearest_step ray best s = sphere_ray_intersect ray s).
  { intros best. rewrite nearest_step_eq. unfold geb. by rewrite leb_nan_r. }
  unfold nearest_intersection. split.
  - by rewrite foldl_snoc.
  - intros s' l2. rewrite foldl_app. simpl. rewrite Hs.
    rewrite (nearest_step_eq ray _ s'). unfold geb.
    fold (hit_distance ray s). by rewrite leb_nan_l.
Qed.

(** [main_sphere] is hit at distance 6; after [distant_sphere], which
    reports [nan], a sphere hit at 16 is selected. *)
Lemma nearest_intersection_nan_witness :
  is_nan (hit_distance axis_ray distant_sphere) = true
  /\ hit_distance axis_ray main_sphere = 6
  /\ (nearest_intersection axis_ray
        [main_sphere; distant_sphere;
         {| center := mk_vec3 0 20 0; radius := 4 |}]).1 = 16.
Proof.
  assert (H : is_nan (hit_distance axis_ray distant_sphere) = true) by reflexivity.
  split_and!; [exact H|reflexivity|].
  refine (eq_trans (f_equal fst
    (proj2 (nearest_intersection_nan axis_ray [main_sphere] distant_sphere H)
       {| center := mk_vec3 0 20 0; radius := 4 |} [])) _).
  reflexivity.
Defined.

(** The scene of [main] on 16 by 9 pixels: the ray of the corner pixel
    gets the sentinel from the sphere and the pixel stays black, the ray of
    the pixel in the middle hits the sphere and the pixel holds the colour
    of the hit. *)
Lemma render_pixelwise_witness :
  image_wf small_image
  /\ exists image',
       render pow_by_squaring main_light_color main_light_direction
         main_light_intensity main_camera main_spheres small_image
       = Some image'
       /\ hit_distance (pixel_ray main_camera small_image 0 0) main_sphere
          = INFINITY
       /\ rgb_image_get image' 0 0 = Some {| r := 0; g := 0; b := 0 |}
       /\ is_finite
            (hit_distance (pixel_ray main_camera small_image 8 4) main_sphere)
          = true
       /\ rgb_image_get image' 8 4 = Some {| r := 148; g := 27; b := 3 |}.
Proof.
  assert (Hwf : image_wf small_image) by reflexivity.
  split; [exact Hwf|]. eexists. split; [vm_compute; reflexivity|].
  match goal with |- context [rgb_image_get ?i 0 0] => set (image' := i) end.
  assert (Hr : render pow_by_squaring main_light_color main_light_direction
                 main_light_intensity main_camera main_spheres small_image
               = Some image') by (vm_compute; reflexivity).
  destruct (render_pixelwise pow_by_squaring main_light_color
              main_light_direction main_light_intensity main_camera
              main_spheres small_image image' Hwf Hr) as (_ & _ & Hpix).
  split_and!; [reflexivity| |reflexivity|].
  - destruct (Hpix 0%nat 0%nat ltac:(simpl; lia) ltac:(simpl; lia)
                ltac:(repeat constructor))
      as [[_ ->]|(k & s & hit & Hk & _ & Hfin & _)]; [reflexivity|].
    destruct k as [|k]; [|done]. injection Hk as <-. by vm_compute in Hfin.
  - destruct (Hpix 8%nat 4%nat ltac:(simpl; lia) ltac:(simpl; lia)
                ltac:(repeat constructor))
      as [[Hinf _]|(k & s & hit & Hk & Hs & _ & _ & _ & ->)].
    + specialize (Hinf main_sphere ltac:(by constructor)). by vm_compute in Hinf.
    + destruct k as [|k]; [|done]. injection Hk as <-.
      vm_compute in Hs. injection Hs as <-. vm_compute. reflexivity.
Defined.

(** The same image, rendered without spheres. *)
Lemma render_all_miss_witness :
  render pow_by_squaring main_light_color main_light_direction
    main_light_intensity main_camera [] small_image = Some small_image.
Proof. apply render_all_miss. intros x y _ _. reflexivity. Defined.

(** The small rendering of [main]'s scene, rendered again. *)
Lemma render_idempotent_witness :
  exists image',
    render pow_by_squaring main_light_color main_light_direction
      main_light_intensity main_camera main_spheres small_image = Some image'
    /\ render pow_by_squaring main_light_color main_light_direction
         main_light_intensity main_camera main_spheres image' = Some image'.
Proof.
  eexists. split; [vm_compute; reflexivity|].
  apply (render_idempotent pow_by_squaring main_light_color
           main_light_direction main_light_intensity main_camera main_spheres
           small_image); [reflexivity|vm_compute; reflexivity].
Defined.

(** * A surface the light does not reach *)

Lemma add_zero_r a z : is_zero z = true -> is_zero a = false -> a + z = a.
Proof.
  rewrite !is_zero_SF. intros Hz Ha. apply Prim2SF_inj. rewrite add_spec.
  by destruct (Prim2SF a) as [s|s| |s m e], (Prim2SF z) as [s'|s'| |s' m' e'].
Qed.

Lemma diffuse_contribution_zero light_color light_direction light_intensity normal :
  (0 <=? vec3_dot normal light_direction) = true ->
  vec3_is_finite
    (vec3_mul_vec (vec3_mul light_color light_intensity) surface_color) = true ->
  vec3_is_zero
    (diffuse_contribution light_color light_direction light_intensity normal)
    = true.
Proof.
  intros Hneg Hfin. unfold diffuse_contribution.
  apply vec3_is_zero_mul; [done|].
  apply is_zero_mul_l; [by apply is_zero_cut_opp|done].
Qed.

(** X10: a hit whose normal does not face the light ([N.L >= 0]) and whose
    reflected light points away from the viewer gets the ambient term and
    nothing else, whatever [pow] is and for every light whose colour, scaled
    by its intensity and the surface colour, is finite: the pixel is
    (19, 3, 3). *)
Theorem shade_unlit pow light_color light_direction light_intensity
    (best_intersection : intersection) (ray : ray) :
  (0 <=? vec3_dot (normal best_intersection) light_direction) = true ->
  vec3_is_finite
    (vec3_mul_vec (vec3_mul light_color light_intensity) surface_color) = true ->
  (- vec3_dot (vec3_reflect light_direction (normal best_intersection))
       (direction ray) <? 0) = true ->
  shade pow light_color light_direction light_intensity best_intersection ray
    = ambient_contribution
  /\ rgb_color_from_light
       (shade pow light_color light_direction light_intensity
          best_intersection ray)
     = Some {| r := 19; g := 3; b := 3 |}.
Proof.
  intros Hneg Hfin Hproj.
  assert (Heq : shade pow light_color light_direction light_intensity
                  best_intersection ray = ambient_contribution).
  { pose proof (diffuse_contribution_zero light_color light_direction
                  light_intensity (normal best_intersection) Hneg Hfin) as Hd.
    unfold shade, specular_contribution. rewrite Hproj.
    destruct (diffuse_contribution _ _ _ _) as [dx dy dz].
    unfold vec3_is_zero in Hd. simpl in Hd.
    apply andb_prop in Hd as [[Hx Hy]%andb_prop Hz].
    change (vec3_add (mk_vec3 0 0 0) ambient_contribution)
      with ambient_contribution.
    unfold vec3_add, ambient_contribution, vec3_mul, surface_color,
      ambient_intensity. cbn [vx vy vz].
    assert (Hc : forall a d, is_zero d = true -> is_zero a = false ->
                   a + d + 0 = a).
    { intros a d Hd Ha. rewrite (add_zero_r a d Hd Ha). by apply add_zero_r. }
    by rewrite (Hc _ dx), (Hc _ dy), (Hc _ dz). }
  split; [done|]. rewrite Heq. reflexivity.
Qed.

(** Pixel (6, 5) of the small rendering of [main]'s scene shows the far
    side of the sphere. *)
Lemma shade_unlit_witness :
  nearest_intersection (pixel_ray main_camera small_image 6 5) main_spheres
    = sphere_ray_intersect (pixel_ray main_camera small_image 6 5) main_sphere
  /\ is_finite (hit_distance (pixel_ray main_camera small_image 6 5) main_sphere)
     = true
  /\ pixel_color pow_by_squaring main_light_color main_light_direction
       main_light_intensity main_camera main_spheres small_image 6 5
     = Some {| r := 19; g := 3; b := 3 |}.
Proof.
  split_and!; [by vm_compute..|].
  refine (proj2 (shade_unlit pow_by_squaring main_light_color
    main_light_direction main_light_intensity
    (sri_hit (pixel_ray main_camera small_image 6 5) main_sphere)
    (pixel_ray main_camera small_image 6 5) _ _ _)); by vm_compute.
Defined.

(** * Degenerate cameras and rays *)

Lemma is_nan_div_l a b : is_nan a = true -> is_nan (a / b) = true.
Proof.
  rewrite !is_nan_SF, div_spec.
  by destruct (Prim2SF a), (Prim2SF b).
Qed.

Lemma is_nan_div_r a b : is_nan b = true -> is_nan (a / b) = true.
Proof.
  rewrite !is_nan_SF, div_spec.
  by destruct (Prim2SF a), (Prim2SF b).
Qed.

Lemma div_zero_not_finite a z : is_zero z = true -> is_finite (a / z) = false.
Proof.
  rewrite is_zero_SF, is_finite_SF, div_spec.
  by destruct (Prim2SF a), (Prim2SF z).
Qed.

Lemma div_zero_infinite a z :
  is_zero z = true -> is_nan a = false -> is_zero a = false ->
  is_infinity (a / z) = true.
Proof.
  rewrite !is_zero_SF, is_nan_SF, is_infinity_SF, div_spec.
  by destruct (Prim2SF a), (Prim2SF z).
Qed.

Lemma is_infinity_opp a : is_infinity (- a) = is_infinity a.
Proof. rewrite !is_infinity_SF, opp_spec. by destruct (Prim2SF a). Qed.

Lemma mul_infinite_r a b : is_infinity b = true -> is_finite (a * b) = false.
Proof.
  rewrite is_infinity_SF, is_finite_SF, mul_spec.
  by destruct (Prim2SF a), (Prim2SF b).
Qed.

Lemma add_not_finite_l a b : is_finite a = false -> is_finite (a + b) = false.
Proof.
  rewrite !is_finite_SF, add_spec.
  destruct (Prim2SF a) as [s|s| |s m e], (Prim2SF b) as [s'|s'| |s' m' e'];
    try done; by destruct s, s'.
Qed.

Lemma sub_not_finite_r a b : is_finite b = false -> is_finite (a - b) = false.
Proof.
  rewrite !is_finite_SF, sub_spec.
  destruct (Prim2SF a) as [s|s| |s m e], (Prim2SF b) as [s'|s'| |s' m' e'];
    try done; by destruct s, s'.
Qed.

(** A vector with a [nan] component has a [nan] length, and nothing but
    [nan] once normalized. *)
Lemma is_nan_vec3_dot_l a b : vec3_has_nan a = true -> is_nan (vec3_dot a b) = true.
Proof.
  unfold vec3_has_nan, vec3_dot.
  intros [[H|H]%orb_prop|H]%orb_prop.
  - by apply is_nan_add_l, is_nan_add_l, is_nan_mul_l.
  - by apply is_nan_add_l, is_nan_add_r, is_nan_mul_l.
  - by apply is_nan_add_r, is_nan_mul_l.
Qed.

Lemma is_nan_vec3_dot_r a b : vec3_has_nan b = true -> is_nan (vec3_dot a b) = true.
Proof.
  unfold vec3_has_nan, vec3_dot.
  intros [[H|H]%orb_prop|H]%orb_prop.
  - by apply is_nan_add_l, is_nan_add_l, is_nan_mul_r.
  - by apply is_nan_add_l, is_nan_add_r, is_nan_mul_r.
  - by apply is_nan_add_r, is_nan_mul_r.
Qed.

Lemma vec3_all_nan_has_nan a : vec3_all_nan a = true -> vec3_has_nan a = true.
Proof.
  unfold vec3_all_nan, vec3_has_nan.
  intros [[-> _]%andb_prop _]%andb_prop. done.
Qed.

Lemma vec3_normalize_nan a :
  vec3_has_nan a = true -> vec3_all_nan (vec3_normalize a) = true.
Proof.
  intros H. unfold vec3_all_nan, vec3_normalize, vec3_length. simpl.
  by rewrite !is_nan_div_r by (by apply is_nan_sqrt, is_nan_vec3_dot_l).
Qed.

(** A vector whose components are all infinite or [nan] has an infinite or
    [nan] length. *)
Lemma vec3_normalize_not_finite a :
  is_finite (vx a) = false -> is_finite (vy a) = false ->
  is_finite (vz a) = false -> vec3_all_nan (vec3_normalize a) = true.
Proof.
  destruct a as [ux uy uz]. simpl.
  unfold vec3_all_nan, vec3_normalize, vec3_length, vec3_dot. simpl.
  rewrite !is_finite_SF, !is_nan_SF, !div_spec, !sqrt_spec, !add_spec, !mul_spec.
  destruct (Prim2SF ux) as [| [] | |], (Prim2SF uy) as [| [] | |],
    (Prim2SF uz) as [| [] | |]; done.
Qed.

(** X11: when [tan] returns a zero, as for a field of view of 0 degrees,
    the focal distance is not a finite number: it is infinite, unless half
    the width is a zero or [nan]. *)
Theorem focal_distance_from_fov_zero_tan tan w theta :
  is_zero (tan (deg_to_rad theta / 2)) = true ->
  is_finite (focal_distance_from_fov tan w theta) = false
  /\ (is_nan (w / 2) = false -> is_zero (w / 2) = false ->
      is_infinity (focal_distance_from_fov tan w theta) = true).
Proof.
  intros Hz. rewrite focal_distance_from_fov_eq. split.
  - by apply div_zero_not_finite.
  - intros Hn Hw. by apply div_zero_infinite.
Qed.

(** For a field of view of 0 degrees [main] would get the camera
    [blind_camera]. *)
Lemma focal_distance_from_fov_zero_tan_witness :
  is_zero (tan_near_zero (deg_to_rad 0 / 2)) = true
  /\ is_infinity (focal_distance_from_fov tan_near_zero 10 0) = true
  /\ focal_distance_from_fov tan_near_zero 10 0 = focal_distance blind_camera.
Proof.
  assert (Hz : is_zero (tan_near_zero (deg_to_rad 0 / 2)) = true) by reflexivity.
  split_and!; [exact Hz| |reflexivity].
  exact (proj2 (focal_distance_from_fov_zero_tan tan_near_zero 10 0 Hz)
           eq_refl eq_refl).
Defined.

(** X12: a camera whose focal distance is infinite casts rays whose
    direction is [nan] in every component, through every point of the
    image plane. *)
Theorem camera_cast_ray_infinite_focal camera cam_x cam_y :
  is_infinity (focal_distance camera) = true ->
  vec3_all_nan (direction (camera_cast_ray camera cam_x cam_y)) = true.
Proof.
  intros Hf. unfold camera_cast_ray. cbn [direction].
  rewrite <- is_infinity_opp in Hf.
  apply vec3_normalize_not_finite; unfold vec3_sub, vec3_add, vec3_mul;
    cbn [vx vy vz];
    by apply sub_not_finite_r, add_not_finite_l, mul_infinite_r.
Qed.

Lemma camera_cast_ray_infinite_focal_witness :
  vec3_all_nan (direction (camera_cast_ray blind_camera 0 0)) = true.
Proof. by apply camera_cast_ray_infinite_focal. Defined.

(** X13: on a ray whose direction has a [nan] component,
    [sphere_ray_intersect] takes neither early exit: it reports the
    distance [nan] and writes a hit record whose point and normal are
    [nan] in every component. *)
Theorem sphere_ray_intersect_nan_direction ray sphere :
  vec3_has_nan (direction ray) = true ->
  exists t hit,
    sphere_ray_intersect ray sphere = (t, Some hit)
    /\ is_nan t = true
    /\ vec3_all_nan (point hit) = true /\ vec3_all_nan (normal hit) = true.
Proof.
  intros Hd.
  assert (Hp : is_nan (sri_projection ray sphere) = true)
    by (by apply is_nan_vec3_dot_r).
  assert (Ht : is_nan (sri_t ray sphere) = true)
    by (by apply is_nan_sri_t_projection).
  assert (Hpoint : vec3_all_nan (point (sri_hit ray sphere)) = true).
  { unfold sri_hit, vec3_all_nan, vec3_add, vec3_mul. simpl.
    by rewrite !is_nan_add_r by (by apply is_nan_mul_r). }
  exists (sri_t ray sphere), (sri_hit ray sphere). split_and!; [|done..|].
  - rewrite sphere_ray_intersect_paths.
    destruct (sri_projection ray sphere <? 0) eqn:E;
      [apply ltb_not_nan in E; intuition congruence|].
    destruct (sri_d ray sphere >? radius sphere) eqn:E'; [|done].
    apply ltb_not_nan in E' as [_ E']. unfold sri_d in E'.
    rewrite is_nan_sqrt in E'; [done|]. by apply is_nan_sub_r, is_nan_mul_l.
  - apply vec3_normalize_nan. apply vec3_all_nan_has_nan in Hpoint.
    unfold vec3_has_nan, vec3_all_nan, vec3_sub in *. simpl in *.
    apply orb_prop in Hpoint as [[H|H]%orb_prop|H];
      rewrite (is_nan_sub_l _ _ H); by rewrite ?orb_true_r.
Qed.

Lemma sphere_ray_intersect_nan_direction_witness :
  is_nan (hit_distance (camera_cast_ray blind_camera 0 0) main_sphere) = true.
Proof.
  destruct (sphere_ray_intersect_nan_direction (camera_cast_ray blind_camera 0 0)
              main_sphere eq_refl) as (t & hit & Heq & Ht & _).
  unfold hit_distance. by rewrite Heq.
Defined.

(** The search over spheres that all report [nan] ends on the last one. *)
Lemma nearest_intersection_nan_direction ray spheres :
  spheres <> [] -> vec3_has_nan (direction ray) = true ->
  exists t hit,
    nearest_intersection ray spheres = (t, Some hit)
    /\ is_nan t = true /\ vec3_all_nan (normal hit) = true.
Proof.
  intros Hne Hd. destruct spheres as [|s l _] using rev_ind; [done|].
  destruct (sphere_ray_intersect_nan_direction ray s Hd)
    as (t & hit & Heq & Ht & _ & Hn).
  exists t, hit. split_and!; [|done..].
  unfold nearest_intersection. rewrite foldl_snoc, nearest_step_eq. unfold geb.
  rewrite leb_nan_r; [done|]. unfold hit_distance. by rewrite Heq.
Qed.

Lemma shade_nan_normal pow light_color light_direction light_intensity hit ray :
  vec3_all_nan (normal hit) = true ->
  vec3_has_nan (shade pow light_color light_direction light_intensity hit ray)
    = true.
Proof.
  intros Hn%vec3_all_nan_has_nan.
  pose proof (is_nan_vec3_dot_l _ light_direction Hn) as Hdot.
  rewrite <- is_nan_opp in Hdot.
  unfold vec3_has_nan, shade, vec3_add, diffuse_contribution, vec3_mul.
  cbn [vx vy vz].
  destruct (- vec3_dot (normal hit) light_direction <? 0) eqn:E;
    [apply ltb_not_nan in E; intuition congruence|].
  rewrite (is_nan_add_l (_ + _ + _)); [done|].
  by apply is_nan_add_r, is_nan_mul_r, is_nan_mul_l.
Qed.

(** X14: as soon as the ray of one pixel has a [nan] in its direction and
    the scene has a sphere, the rendering runs into undefined behaviour:
    the pixel counts as a hit, its shading is [nan], and the conversion of
    [nan] to a colour channel is undefined.  A camera with an infinite focal
    distance does this at the first pixel. *)
Theorem render_nan_ray pow light_color light_direction light_intensity camera
    spheres image x y :
  (x < width image)%nat -> (y < height image)%nat -> spheres <> [] ->
  vec3_has_nan (direction (pixel_ray camera image x y)) = true ->
  render pow light_color light_direction light_intensity camera spheres image
    = None.
Proof.
  intros Hx Hy Hne Hd.
  destruct (render pow light_color light_direction light_intensity camera
              spheres image) as [image'|] eqn:Hr; [exfalso|done].
  destruct (render_ran_pixel _ _ _ _ _ _ _ _ x y Hr Hx Hy) as (u & Hsz & Hs).
  pose proof (proj1 (render_pixel_is_Some _ _ _ _ _ _ u x y) Hs) as Hs'.
  assert (Hray : pixel_ray camera u x y = pixel_ray camera image x y)
    by (unfold pixel_ray; destruct Hsz as [-> ->]; done).
  unfold pixel_misses in Hs'. rewrite Hray in Hs'.
  destruct (nearest_intersection_nan_direction _ spheres Hne Hd)
    as (t & hit & Heq & Ht & Hn).
  rewrite Heq in Hs'. simpl in Hs'.
  destruct Hs' as (bi & [= <-] & Hs').
  - unfold isinf. rewrite is_infinity_SF. rewrite is_nan_SF in Ht.
    by destruct (Prim2SF t).
  - by rewrite shade_nan_normal in Hs'.
Qed.

Lemma render_nan_ray_witness :
  render pow_by_squaring main_light_color main_light_direction
    main_light_intensity blind_camera main_spheres small_image = None.
Proof.
  apply (render_nan_ray pow_by_squaring main_light_color main_light_direction
           main_light_intensity blind_camera main_spheres small_image 0 0);
    [simpl; lia|simpl; lia|done|reflexivity].
Defined.

(** * The rendering of [main] *)

(** ** Magnitudes through rounding *)

Lemma Zdigits2_gt m : (0 <= m)%Z -> (m < 2 ^ Zdigits2 m)%Z.
Proof.
  destruct m as [|p|p]; simpl; [done| |lia]. intros _. apply digits2_pos_gt.
Qed.

Lemma Zdigits2_nonneg m : (0 <= Zdigits2 m)%Z.
Proof. destruct m; simpl; lia. Qed.

(** Rounding takes a value below [2 ^ k] to a value below [2 ^ (k + 1)],
    short of overflow. *)
Lemma binary_round_aux_below s m e l k :
  (0 <= m)%Z -> (Zdigits2 m + e <= k)%Z -> (e <= 970)%Z ->
  (-1074 <= k <= 1023)%Z ->
  SF_below (k + 1) (binary_round_aux prec emax s m e l).
Proof.
  intros Hm Hk He Hk'. unfold binary_round_aux.
  destruct (shr_fexp_spec m e l Hm) as [He1 Hm1].
  destruct (shr_fexp prec emax m e l) as [mrs1 e1]. simpl in He1, Hm1.
  rewrite fexp_eq in He1.
  pose proof (Zdigits2_gt m Hm) as Hd. pose proof (Zdigits2_nonneg m) as Hd0.
  set (d := Zdigits2 m) in *.
  assert (Hpow : forall a b, (0 <= a)%Z -> (0 <= b)%Z ->
                   (2 ^ (a + b) = 2 ^ a * 2 ^ b)%Z) by (intros; apply Z.pow_add_r; lia).
  assert (Hpos : forall a, (0 <= a)%Z -> (0 < 2 ^ a)%Z) by (intros; apply Z.pow_pos_nonneg; lia).
  set (g := Z.max (d + e - e1) 0).
  assert (Hg : (0 <= g <= 53)%Z) by lia.
  assert (Hm1' : (0 <= shr_m mrs1 /\ shr_m mrs1 + 1 <= 2 ^ g)%Z).
  { rewrite Hm1. split; [apply Z.div_pos; [done|apply Hpos; lia]|].
    destruct (Z_le_gt_dec (e1 - e) d) as [Hle|Hgt].
    - replace g with (d - (e1 - e))%Z by lia.
      enough (m / 2 ^ (e1 - e) < 2 ^ (d - (e1 - e)))%Z by lia.
      apply Z.div_lt_upper_bound; [apply Hpos; lia|].
      rewrite <- Hpow by lia. by replace (e1 - e + (d - (e1 - e)))%Z with d by lia.
    - replace g with 0%Z by lia. rewrite Z.div_small; [done|].
      split; [done|]. eapply Z.lt_le_trans; [exact Hd|].
      apply Z.pow_le_mono_r; lia. }
  pose proof (round_nearest_even_le (shr_m mrs1) (loc_of_shr_record mrs1)) as Hr.
  set (m2 := round_nearest_even _ _) in *.
  assert (Hm2 : (0 <= m2 <= 2 ^ g)%Z) by lia.
  destruct (shr_fexp_spec m2 e1 loc_Exact (proj1 Hm2)) as [He2 Hmf].
  destruct (shr_fexp prec emax m2 e1 loc_Exact) as [mrs2 e2]. simpl in He2, Hmf.
  rewrite fexp_eq in He2.
  assert (Hd2 : (Zdigits2 m2 <= g + 1)%Z).
  { apply Zdigits2_le; [|lia]. split; [lia|].
    rewrite Hpow by lia. pose proof (Hpos g ltac:(lia)). lia. }
  assert (He2' : (e1 <= e2 <= e1 + 1)%Z) by lia.
  destruct (shr_m mrs2) as [|mf|mf] eqn:Emf; [done| |].
  - assert ((e2 <=? emax - prec)%Z = true) as ->.
    { apply Z.leb_le. change (emax - prec)%Z with 971%Z. lia. }
    simpl.
    set (b := (e2 - e1)%Z) in *.
    assert (Hb : (b <= g)%Z).
    { destruct (Z_le_gt_dec b g) as [|Hgt]; [done|exfalso].
      assert (2 ^ g < 2 ^ b)%Z by (apply Z.pow_lt_mono_r; lia).
      rewrite Z.div_small in Hmf by lia. done. }
    assert (Hlt : (Z.pos mf < 2 ^ (g - b + 1))%Z).
    { rewrite Hmf. apply Z.div_lt_upper_bound; [apply Hpos; lia|].
      rewrite <- Hpow by lia. replace (b + (g - b + 1))%Z with (g + 1)%Z by lia.
      rewrite Hpow by lia. pose proof (Hpos g ltac:(lia)). lia. }
    apply digits2_pos_le in Hlt; lia.
  - exfalso. assert (0 <= m2 / 2 ^ (e2 - e1))%Z; [|lia].
    apply Z.div_pos; [lia|apply Hpos; lia].
Qed.

(** The exponent of a number of the format, from its magnitude. *)
Lemma valid_exponent (a : float) s m e :
  Prim2SF a = S754_finite s m e ->
  (e = Z.max (Z.pos (digits2_pos m) + e - 53) (-1074) /\ e <= 971)%Z.
Proof.
  intros E. pose proof (Prim2SF_valid a) as Hv. rewrite E in Hv.
  unfold valid_binary, bounded, canonical_mantissa in Hv.
  apply andb_prop in Hv as [Hc Hb]. to_binint.
  apply Z.eqb_eq in Hc. rewrite fexp_eq in Hc. apply Z.leb_le in Hb.
  change (emax - prec)%Z with 971%Z in Hb. lia.
Qed.

Lemma finite_below a : is_finite a = true -> SF_below 1024 (Prim2SF a).
Proof.
  rewrite is_finite_SF. destruct (Prim2SF a) as [s|s| |s m e] eqn:E; try done.
  intros _. simpl. pose proof (valid_exponent a s m e E). lia.
Qed.

Lemma below_finite a k : SF_below k (Prim2SF a) -> is_finite a = true.
Proof. rewrite is_finite_SF. by destruct (Prim2SF a). Qed.

Lemma SF_below_mono k k' x : (k <= k')%Z -> SF_below k x -> SF_below k' x.
Proof. destruct x; simpl; try done. lia. Qed.

(** A product of numbers below [2 ^ ka] and [2 ^ kb] is below
    [2 ^ (ka + kb + 1)], short of overflow. *)
Lemma mul_below a b ka kb :
  SF_below ka (Prim2SF a) -> SF_below kb (Prim2SF b) ->
  (-1021 <= ka)%Z -> (-1021 <= kb)%Z -> (-1074 <= ka + kb <= 1023)%Z ->
  SF_below (ka + kb + 1) (Prim2SF (a * b)).
Proof.
  rewrite mul_spec.
  destruct (Prim2SF a) as [sa|sa| |sa ma ea] eqn:Ea,
    (Prim2SF b) as [sb|sb| |sb mb eb] eqn:Eb; try done.
  intros Ha Hb Hka Hkb Hk. simpl in Ha, Hb.
  pose proof (valid_exponent a _ _ _ Ea) as [Hea _].
  pose proof (valid_exponent b _ _ _ Eb) as [Heb _].
  change (SF64mul (S754_finite sa ma ea) (S754_finite sb mb eb))
    with (binary_round_aux prec emax (xorb sa sb) (Z.pos (ma * mb))
            (ea + eb) loc_Exact).
  apply binary_round_aux_below; [lia| |lia|lia].
  pose proof (digits2_pos_gt ma) as Hma. pose proof (digits2_pos_gt mb) as Hmb.
  assert (Hd : (Zdigits2 (Z.pos (ma * mb))
                <= Z.pos (digits2_pos ma) + Z.pos (digits2_pos mb))%Z).
  { apply Zdigits2_le; [|lia]. split; [lia|].
    rewrite Z.pow_add_r by lia. rewrite Pos2Z.inj_mul. nia. }
  lia.
Qed.

Lemma leb_2_below a :
  (0 <=? a) = true -> (a <=? 2) = true -> SF_below 2 (Prim2SF a).
Proof.
  rewrite leb_0_SF, FloatAxioms.leb_spec.
  change (Prim2SF 2) with (S754_finite false 4503599627370496 (-51)).
  destruct (Prim2SF a) as [s|s| |s m e] eqn:E; try done; [by destruct s|].
  destruct s; [done|]. intros _ Hle. unfold SFleb, SFcompare in Hle.
  change IntDef.Z.compare with Z.compare in Hle. simpl.
  pose proof (valid_exponent a _ _ _ E) as [He _].
  destruct (Z.compare_spec e (-51)) as [->|?|?]; [lia|lia|done].
Qed.

(** The stand-in for [pow] is finite on [[0, 2]]. *)
Lemma pow_by_squaring_finite a :
  (0 <=? a) = true -> (a <=? 2) = true ->
  is_finite (pow_by_squaring a spec_n) = true.
Proof.
  intros H0 H2. pose proof (leb_2_below a H0 H2) as Ha.
  unfold pow_by_squaring.
  pose proof (mul_below a a 2 2 Ha Ha ltac:(lia) ltac:(lia) ltac:(lia)) as Ha2.
  pose proof (mul_below _ _ _ _ Ha2 Ha2 ltac:(lia) ltac:(lia) ltac:(lia)) as Ha4.
  pose proof (mul_below _ _ _ _ Ha4 Ha4 ltac:(lia) ltac:(lia) ltac:(lia)) as Ha8.
  pose proof (mul_below _ _ _ _ Ha8 Ha2 ltac:(lia) ltac:(lia) ltac:(lia)) as Hp.
  by eapply below_finite.
Qed.

Lemma mul_spec_ks_finite a : is_finite a = true -> is_finite (a * spec_ks) = true.
Proof.
  intros Ha%finite_below.
  assert (Hk : SF_below (-2) (Prim2SF spec_ks)) by (by vm_compute).
  pose proof (mul_below a spec_ks 1024 (-2) Ha Hk ltac:(lia) ltac:(lia) ltac:(lia)).
  by eapply below_finite.
Qed.

Lemma add_finite_not_nan a b :
  is_finite a = true -> is_finite b = true -> is_nan (a + b) = false.
Proof.
  rewrite !is_finite_SF, is_nan_SF, add_spec.
  destruct (Prim2SF a) as [sa|sa| |sa ma ea], (Prim2SF b) as [sb|sb| |sb mb eb];
    try done; intros _ _; try (by destruct sa, sb).
  simpl. by destruct (binary_normalize _ _ _ _ _) eqn:E;
    [..|by apply binary_normalize_not_nan in E|].
Qed.

(** ** The shading of a hit of [main]'s scene *)

Lemma is_zero_finite a : is_zero a = true -> is_finite a = true.
Proof. rewrite is_zero_SF, is_finite_SF. by destruct (Prim2SF a). Qed.

Lemma vec3_add_no_nan a b :
  vec3_is_finite a = true -> vec3_is_finite b = true ->
  vec3_has_nan (vec3_add a b) = false.
Proof.
  unfold vec3_is_finite, vec3_has_nan, vec3_add. cbn [vx vy vz].
  intros [[Hx Hy]%andb_prop Hz]%andb_prop [[Hx' Hy']%andb_prop Hz']%andb_prop.
  by rewrite !add_finite_not_nan.
Qed.

(** The shading of a hit has no [nan] when its part without [pow] is
    finite and [pow] is not called, or called on a cosine where it is
    finite. *)
Lemma shade_main_no_nan pow best_intersection ray :
  (forall a, (0 <=? a) = true -> (a <=? 2) = true ->
     is_finite (pow a spec_n) = true) ->
  vec3_is_finite (lit_part best_intersection) = true ->
  (specular_proj best_intersection ray <? 0)
  || ((0 <=? specular_proj best_intersection ray)
      && (specular_proj best_intersection ray <=? 2)) = true ->
  vec3_has_nan
    (shade pow main_light_color main_light_direction main_light_intensity
       best_intersection ray) = false.
Proof.
  intros Hpow Hlit Hproj.
  change (shade pow main_light_color main_light_direction main_light_intensity
            best_intersection ray)
    with (vec3_add (lit_part best_intersection)
            (if specular_proj best_intersection ray <? 0 then mk_vec3 0 0 0
             else vec3_mul main_light_color
                    (pow (specular_proj best_intersection ray) spec_n * spec_ks))).
  apply vec3_add_no_nan; [done|].
  destruct (specular_proj best_intersection ray <? 0); [done|].
  simpl in Hproj. apply andb_prop in Hproj as [H0 H2].
  pose proof (mul_spec_ks_finite _ (Hpow _ H0 H2)) as Hc.
  unfold vec3_is_finite, vec3_mul, main_light_color. cbn [vx vy vz].
  rewrite mul_1_l, Hc. simpl.
  by apply is_zero_finite, is_zero_mul_l.
Qed.

Lemma ray_ok_shade pow ray :
  (forall a, (0 <=? a) = true -> (a <=? 2) = true ->
     is_finite (pow a spec_n) = true) ->
  ray_ok ray = true ->
  isinf (nearest_intersection ray main_spheres).1 = false ->
  exists best_intersection,
    (nearest_intersection ray main_spheres).2 = Some best_intersection
    /\ vec3_has_nan
         (shade pow main_light_color main_light_direction main_light_intensity
            best_intersection ray) = false.
Proof.
  intros Hpow Hok Hhit. unfold ray_ok in Hok. rewrite Hhit in Hok. simpl in Hok.
  destruct (nearest_intersection ray main_spheres).2 as [bi|]; [|done].
  apply andb_prop in Hok as [Hlit Hproj].
  exists bi. split; [done|]. by apply shade_main_no_nan.
Qed.

(** ** Every pixel of the image of [main] *)

Lemma all_from_spec n z f :
  all_from n z f = true -> forall i, (i < n)%nat -> f (z + Z.of_nat i)%Z = true.
Proof.
  revert z. induction n as [|n IH]; intros z H i Hi; [lia|].
  simpl in H. apply andb_prop in H as [Hz Hn].
  destruct i as [|i]; [by rewrite Z.add_0_r|].
  replace (z + Z.of_nat (Datatypes.S i))%Z with (z + 1 + Z.of_nat i)%Z by lia.
  apply IH; [done|lia].
Qed.

Lemma main_pixel_ray_eq f image x y :
  width image = 1920%nat -> height image = 1080%nat ->
  pixel_ray (main_camera_at f) image x y
  = main_pixel_ray f (Z.of_nat x) (Z.of_nat y).
Proof. intros Hw Hh. unfold pixel_ray. rewrite Hw, Hh. reflexivity. Qed.

(** [main] renders its scene with the camera of the focal distance that
    [focal_distance_from_fov] returns. *)
Lemma main_image_at tan pow f :
  focal_distance_from_fov tan 10 80 = f ->
  main_image tan pow =
  render pow main_light_color main_light_direction main_light_intensity
    (main_camera_at f) main_spheres
    (rgb_image_clear (rgb_image_alloc 1920 1080) {| r := 0; g := 0; b := 0 |}).
Proof. intros <-. reflexivity. Qed.

(** The 1920 by 1080 rays of [main], one by one, for the two focal
    distances. *)
Lemma main_rays_ok :
  all_from 1080 0
    (fun y => all_from 1920 0
                (fun x => ray_ok (main_pixel_ray main_focal_distance x y)))
  = true.
Proof. by vm_compute. Qed.

Lemma main_rays_ok_low :
  all_from 1080 0
    (fun y => all_from 1920 0
                (fun x => ray_ok (main_pixel_ray main_focal_distance_low x y)))
  = true.
Proof. by vm_compute. Qed.

(** A rendering of [main]'s scene is defined as soon as its 1920 by 1080
    rays pass the check. *)
Lemma main_camera_at_defined pow f :
  (forall a, (0 <=? a) = true -> (a <=? 2) = true ->
     is_finite (pow a spec_n) = true) ->
  all_from 1080 0
    (fun y => all_from 1920 0 (fun x => ray_ok (main_pixel_ray f x y))) = true ->
  is_Some
    (render pow main_light_color main_light_direction main_light_intensity
       (main_camera_at f) main_spheres
       (rgb_image_clear (rgb_image_alloc 1920 1080)
          {| r := 0; g := 0; b := 0 |})).
Proof.
  intros Hpow Hok.
  apply render_pixels_defined. intros x y Hx Hy Hhit.
  change (x < 1920)%nat in Hx. change (y < 1080)%nat in Hy.
  unfold pixel_misses in Hhit.
  rewrite (main_pixel_ray_eq f
             (rgb_image_clear (rgb_image_alloc 1920 1080)
                {| r := 0; g := 0; b := 0 |}) x y eq_refl eq_refl) in Hhit |- *.
  apply ray_ok_shade; [done| |done].
  pose proof (all_from_spec _ _ _ Hok y Hy) as Hrow. cbv beta in Hrow.
  apply (all_from_spec _ _ _ Hrow x Hx).
Qed.

(** X15: the rendering of [main] stays within defined behaviour, and
    produces its image, with every libm whose [tan] is within one unit in
    the last place of the tangent at the argument [main] passes (it
    returns [tan_40_degrees], the nearest double, or the double next above
    it) and whose [pow] is finite on cosines between 0 and 2: no pixel of
    the 1920 by 1080 gets a [nan]. *)
Theorem main_image_defined tan pow :
  tan (deg_to_rad 80 / 2) = tan_40_degrees
  \/ tan (deg_to_rad 80 / 2) = tan_40_degrees_up ->
  (forall a, (0 <=? a) = true -> (a <=? 2) = true ->
     is_finite (pow a spec_n) = true) ->
  is_Some (main_image tan pow).
Proof.
  intros Htan Hpow.
  assert (Hf : focal_distance_from_fov tan 10 80 = main_focal_distance
               \/ focal_distance_from_fov tan 10 80 = main_focal_distance_low).
  { rewrite focal_distance_from_fov_eq.
    destruct Htan as [-> | ->]; [left|right]; by vm_compute. }
  destruct Hf as [Hf|Hf]; rewrite (main_image_at tan pow _ Hf).
  - apply main_camera_at_defined; [exact Hpow|exact main_rays_ok].
  - apply main_camera_at_defined; [exact Hpow|exact main_rays_ok_low].
Qed.

(** Lambert's continued fraction, evaluated in binary64, returns the
    nearest double at the argument of [main]. *)
Lemma main_image_defined_witness :
  tan_lambert (deg_to_rad 80 / 2) = tan_40_degrees
  /\ is_Some (main_image tan_lambert pow_by_squaring).
Proof.
  assert (Htan : tan_lambert (deg_to_rad 80 / 2) = tan_40_degrees)
    by reflexivity.
  split; [exact Htan|].
  apply main_image_defined; [by left|apply pow_by_squaring_finite].
Defined.

